(** * python-telegram-bot: message entities and paid media

    A shallow embedding of [telegram/_messageentity.py] (the translation of
    entity offsets from Unicode code points to UTF-16 code units) and of
    [telegram/_paidmedia.py] (the decoding of the paid-media tagged union),
    with the properties of both. *)

From Stdlib Require Import ZArith Lia.
From stdpp Require Import gmap strings list sorting.

Open Scope Z_scope.

(** ** Python outcomes

    A call returns a value, raises an exception, or - in the model only - is
    [Undefined]: the state handed to it is one no Python execution reaches
    (a reference to an object that was never allocated). *)

Inductive exn : Type :=
| UnicodeEncodeError
| KeyError
| TypeError.

Inductive result (A : Type) : Type :=
| Ok (a : A)
| Raise (e : exn)
| Undefined.

Arguments Ok {A} a.
Arguments Raise {A} e.
Arguments Undefined {A}.

#[global] Instance result_ret : MRet result := fun A a => Ok a.
#[global] Instance result_bind : MBind result := fun A B f m =>
  match m with
  | Ok a => f a
  | Raise e => Raise e
  | Undefined => Undefined
  end.

(** [for x in l: st = body(st, x)] *)
Fixpoint for_each {A St : Type} (body : St → A → result St) (l : list A) (st : St)
  : result St :=
  match l with
  | [] => Ok st
  | x :: l' => st' ← body st x; for_each body l' st'
  end.

(** [for i, x in enumerate(l): st = body(st, i, x)], counting from [i]. *)
Fixpoint for_enumerate {A St : Type} (body : St → nat → A → result St)
    (i : nat) (l : list A) (st : St) : result St :=
  match l with
  | [] => Ok st
  | x :: l' => st' ← body st i x; for_enumerate body (S i) l' st'
  end.

(** ** Python strings

    A [str] is a sequence of code points.  Slicing never raises: negative
    indices count from the end and every index is clamped to the string. *)

Abbreviation str := (list Z) (only parsing).

Definition slice_index (n i : Z) : Z :=
  if i <? 0 then Z.max (i + n) 0 else Z.min i n.

Definition py_slice {A : Type} (s : list A) (lo hi : Z) : list A :=
  let n := Z.of_nat (length s) in
  let lo' := slice_index n lo in
  let hi' := slice_index n hi in
  take (Z.to_nat (hi' - lo')) (drop (Z.to_nat lo') s).

(** [s.encode("utf-16-le")]: one 16-bit unit for a code point of the Basic
    Multilingual Plane, a surrogate pair above it, each unit as two bytes,
    low byte first.  A surrogate code point in the string itself cannot be
    encoded. *)

Definition is_surrogate (c : Z) : bool := (0xD800 <=? c) && (c <=? 0xDFFF).

Definition unit_bytes (u : Z) : list Z := [Z.land u 0xFF; Z.shiftr u 8].

Definition encode_code_point (c : Z) : result (list Z) :=
  if is_surrogate c then Raise UnicodeEncodeError
  else if c <? 0x10000 then Ok (unit_bytes c)
  else
    let c' := c - 0x10000 in
    Ok (unit_bytes (0xD800 + Z.shiftr c' 10)
        ++ unit_bytes (0xDC00 + Z.land c' 0x3FF)).

Fixpoint encode_utf_16_le (s : str) : result (list Z) :=
  match s with
  | [] => Ok []
  | c :: s' =>
      b ← encode_code_point c;
      bs ← encode_utf_16_le s';
      Ok (b ++ bs)
  end.

(** [len(s.encode("utf-16-le")) // 2] *)
Definition utf16_len (s : str) : result Z :=
  encoded ← encode_utf_16_le s;
  Ok (Z.of_nat (length encoded) `div` 2).

(** The strings of the specification: sequences of Unicode scalar values. *)
Definition scalar_value (c : Z) : Prop :=
  0 <= c <= 0x10FFFF ∧ is_surrogate c = false.

Definition in_bmp (c : Z) : Prop := c < 0x10000.

(** The number of 16-bit units a code point and a string take in UTF-16. *)
Definition code_units (c : Z) : Z := if c <? 0x10000 then 1 else 2.

Definition utf16_units (s : str) : Z := foldr (fun c n => code_units c + n) 0 s.

Arguments utf16_units : simpl never.

(** ** Message entities: [telegram/_messageentity.py] *)

Module MessageEntity.

(** An entity as a bare span: the slots of the class, for an entity built
    without [api_kwargs].  The [telegram.User] an entity mentions is an
    object of its own; the entity holds a reference to it, which a shallow
    copy shares.  The entities that carry [api_kwargs] and the state of the
    base class are those of [MessageEntityObject] below; the copy of a bare
    span is a duplicate of it. *)
Definition UserRef := nat.

Record t : Type := mk {
  type : string;
  offset : Z;
  length : Z;
  url : option string;
  user : option UserRef;
  language : option string;
  custom_emoji_id : option string;
}.

(** Modelled from the spec: [constants.MessageEntityType] is not under src/;
    the kinds are the strings of the wire format. *)
Definition BOLD : string := "bold".
Definition ITALIC : string := "italic".
Definition UNDERLINE : string := "underline".

(** *** The object store

    Entities are objects: a sequence of entities is a sequence of references
    into the store.  [copy.copy] allocates, attribute assignment updates in
    place. *)

Abbreviation loc := nat (only parsing).
Abbreviation heap := (list t) (only parsing).

Definition deref (h : heap) (l : loc) : result t :=
  match h !! l with
  | Some e => Ok e
  | None => Undefined
  end.

(** [copy.copy] of a bare span: a new object with the slots of the old
    one. *)
Definition copy_copy (h : heap) (l : loc) : result (heap * loc) :=
  e ← deref h l;
  Ok (h ++ [e], List.length h).

Definition with_offset (e : t) (v : Z) : t :=
  mk (type e) v (length e) (url e) (user e) (language e) (custom_emoji_id e).

Definition with_length (e : t) (v : Z) : t :=
  mk (type e) (offset e) v (url e) (user e) (language e) (custom_emoji_id e).

Definition set_offset (h : heap) (l : loc) (v : Z) : result heap :=
  e ← deref h l;
  Ok (<[l := with_offset e v]> h).

Definition set_length (h : heap) (l : loc) (v : Z) : result heap :=
  e ← deref h l;
  Ok (<[l := with_length e v]> h).

(** [d[k]] on a dict *)
Definition getitem (d : gmap Z Z) (k : Z) : result Z :=
  match d !! k with
  | Some v => Ok v
  | None => Raise KeyError
  end.

(** *** adjust_message_entities_to_utf_16 *)

(** The sorted chain of the pairs [(x.offset, x.offset + x.length)] for [x]
    in [entities]. *)
Definition sorted_positions (xs : list t) : list Z :=
  merge_sort Z.le (x ← xs; [offset x; offset x + length x]).

(** The body of the first loop, on the pair
    [(accumulated_length, position_translation)]. *)
Definition translate_position (text : str) (positions : list Z)
    (st : Z * gmap Z Z) (i : nat) (position : Z) : result (Z * gmap Z Z) :=
  let '(accumulated_length, position_translation) := st in
  let last_position :=
    if decide (0 < i)%nat then positions !!! (i - 1)%nat else 0 in
  let text_slice := py_slice text last_position position in
  units ← utf16_len text_slice;
  let accumulated_length := accumulated_length + units in
  Ok (accumulated_length, <[position := accumulated_length]> position_translation).

Definition position_translation (text : str) (xs : list t) : result (gmap Z Z) :=
  let positions := sorted_positions xs in
  st ← for_enumerate (translate_position text positions) 0 positions (0, ∅);
  Ok st.2.

(** The body of the second loop, on the store and the list [out]. *)
Definition translate_entity (position_translation : gmap Z Z)
    (st : heap * list loc) (entity : loc) : result (heap * list loc) :=
  let '(h, out) := st in
  x ← deref h entity;
  translated_positions ← getitem position_translation (offset x);
  translated_end ← getitem position_translation (offset x + length x);
  let translated_length := translated_end - translated_positions in
  '(h, new_entity) ← copy_copy h entity;
  h ← set_offset h new_entity translated_positions;
  h ← set_length h new_entity translated_length;
  Ok (h, out ++ [new_entity]).

Definition adjust_message_entities_to_utf_16 (h : heap) (text : str)
    (entities : list loc) : result (heap * list loc) :=
  xs ← for_each (fun acc l => x ← deref h l; Ok (acc ++ [x])) entities [];
  tr ← position_translation text xs;
  for_each (translate_entity tr) entities (h, []).

(** The translation the loops are expected to compute for one entity: both
    boundaries measured in UTF-16 units of the prefix of [text] before them. *)
Definition prefix_units (text : str) (p : Z) : Z :=
  utf16_units (take (Z.to_nat p) text).

Definition translated (text : str) (e : t) : t :=
  let start := prefix_units text (offset e) in
  let stop := prefix_units text (offset e + length e) in
  with_length (with_offset e start) (stop - start).

(** The references [entities] denote the entities [es] in the store [h]. *)
Definition stored (h : heap) (entities : list loc) (es : list t) : Prop :=
  Forall2 (fun l e => h !! l = Some e) entities es.

(** Both boundaries of the span lie within the text. *)
Definition within_text (text : str) (e : t) : Prop :=
  0 <= offset e <= Z.of_nat (List.length text) ∧
  0 <= offset e + length e <= Z.of_nat (List.length text).

(** A valid span: offset and length are not negative and the span ends
    within the text. *)
Definition valid_span (text : str) (e : t) : Prop :=
  0 <= offset e ∧ 0 <= length e ∧
  offset e + length e <= Z.of_nat (List.length text).

(** The text and the entities of the example in the docstring; the text has
    31 code points, five of them outside the Basic Multilingual Plane. *)
Definition example_text : str :=
  [0x20315; 32; 98; 111; 108; 100; 32; 0x1D122; 32; 105; 116; 97; 108; 105; 99;
   32; 117; 110; 100; 101; 114; 108; 105; 110; 101; 100; 58; 32;
   0x1D6D9; 0x1D322; 0x1104D].

Definition entity (ty : string) (off len : Z) : t :=
  mk ty off len None None None None.

Definition example_entities : list t :=
  [entity BOLD 2 4; entity ITALIC 9 6; entity UNDERLINE 28 3].

End MessageEntity.


(** ** Message entities as objects of the library

    The entities above are bare spans: a kind, the two numbers, the
    auxiliary fields.  An entity of the library is an object of
    [TelegramObject]: besides its slots it carries the [api_kwargs] it was
    built with, the [_id_attrs] its equality looks at and the bot it is
    bound to; and [copy.copy] of such an object is more than a duplicate.
    This is the translation on these objects. *)

Module MessageEntityObject.

(** What an attribute or an entry of [api_kwargs] can hold; a reference
    stands for an object of its own, such as the [telegram.User] of a
    mention or the bot. *)
#[warnings="-register-all"]
Inductive pyval : Type :=
| PNone
| PBool (b : bool)
| PInt (n : Z)
| PStr (s : string)
| PRef (r : nat)
| PList (l : list pyval)
| PDict (d : list (string * pyval)).

Record t : Type := mk {
  type : string;
  offset : Z;
  length : Z;
  url : pyval;
  user : pyval;
  language : pyval;
  custom_emoji_id : pyval;
  api_kwargs : gmap string pyval;
  _id_attrs : string * Z * Z;
  _bot : pyval;
}.

(** [MessageEntity.__init__]; [enum.get_member] leaves the string of the
    kind as it is or gives the member of the enumeration that is this
    string. *)
Definition MessageEntity__init__ (type : string) (offset length : Z)
    (url user language custom_emoji_id : pyval)
    (api_kwargs : gmap string pyval) : t :=
  {| type := type; offset := offset; length := length;
     url := url; user := user; language := language;
     custom_emoji_id := custom_emoji_id;
     api_kwargs := api_kwargs;
     _id_attrs := (type, offset, length);
     _bot := PNone |}.

(** Modelled from the spec: [TelegramObject] is not under src/.  [copy.copy]
    makes the new object from the state of the old one - its slots without
    the bot, and its [api_kwargs] - as for an object that is unpickled: the
    slots are set as they are, [_id_attrs] among them, and then every entry
    of [api_kwargs] that is named after an attribute which is [None] is
    moved into that attribute.  [type], [offset] and [length] are never
    [None]; the bot of the new object is. *)
Definition apply_api_kwarg (attr : pyval) (key : string)
    (api_kwargs : gmap string pyval) : pyval * gmap string pyval :=
  match attr, api_kwargs !! key with
  | PNone, Some v => (v, delete key api_kwargs)
  | _, _ => (attr, api_kwargs)
  end.

Definition copied (e : t) : t :=
  let kw := api_kwargs e in
  let '(url, kw) := apply_api_kwarg (url e) "url" kw in
  let '(user, kw) := apply_api_kwarg (user e) "user" kw in
  let '(language, kw) := apply_api_kwarg (language e) "language" kw in
  let '(custom_emoji_id, kw) :=
    apply_api_kwarg (custom_emoji_id e) "custom_emoji_id" kw in
  let '(_bot, kw) := apply_api_kwarg PNone "_bot" kw in
  {| type := type e; offset := offset e; length := length e;
     url := url; user := user; language := language;
     custom_emoji_id := custom_emoji_id;
     api_kwargs := kw;
     _id_attrs := _id_attrs e;
     _bot := _bot |}.

(** *** The object store *)

Abbreviation loc := nat (only parsing).
Abbreviation heap := (list t) (only parsing).

Definition deref (h : heap) (l : loc) : result t :=
  match h !! l with
  | Some e => Ok e
  | None => Undefined
  end.

Definition copy_copy (h : heap) (l : loc) : result (heap * loc) :=
  e ← deref h l;
  Ok (h ++ [copied e], List.length h).

Definition with_offset (e : t) (v : Z) : t :=
  {| type := type e; offset := v; length := length e;
     url := url e; user := user e; language := language e;
     custom_emoji_id := custom_emoji_id e;
     api_kwargs := api_kwargs e; _id_attrs := _id_attrs e; _bot := _bot e |}.

Definition with_length (e : t) (v : Z) : t :=
  {| type := type e; offset := offset e; length := v;
     url := url e; user := user e; language := language e;
     custom_emoji_id := custom_emoji_id e;
     api_kwargs := api_kwargs e; _id_attrs := _id_attrs e; _bot := _bot e |}.

Definition set_offset (h : heap) (l : loc) (v : Z) : result heap :=
  e ← deref h l;
  Ok (<[l := with_offset e v]> h).

Definition set_length (h : heap) (l : loc) (v : Z) : result heap :=
  e ← deref h l;
  Ok (<[l := with_length e v]> h).

(** *** adjust_message_entities_to_utf_16

    The first loop reads the offsets and the lengths only; its body is
    [MessageEntity.translate_position]. *)

Definition sorted_positions (xs : list t) : list Z :=
  merge_sort Z.le (x ← xs; [offset x; offset x + length x]).

Definition position_translation (text : str) (xs : list t) : result (gmap Z Z) :=
  let positions := sorted_positions xs in
  st ← for_enumerate (MessageEntity.translate_position text positions) 0
         positions (0, ∅);
  Ok st.2.

Definition translate_entity (position_translation : gmap Z Z)
    (st : heap * list loc) (entity : loc) : result (heap * list loc) :=
  let '(h, out) := st in
  x ← deref h entity;
  translated_positions ← MessageEntity.getitem position_translation (offset x);
  translated_end ←
    MessageEntity.getitem position_translation (offset x + length x);
  let translated_length := translated_end - translated_positions in
  '(h, new_entity) ← copy_copy h entity;
  h ← set_offset h new_entity translated_positions;
  h ← set_length h new_entity translated_length;
  Ok (h, out ++ [new_entity]).

Definition adjust_message_entities_to_utf_16 (h : heap) (text : str)
    (entities : list loc) : result (heap * list loc) :=
  xs ← for_each (fun acc l => x ← deref h l; Ok (acc ++ [x])) entities [];
  tr ← position_translation text xs;
  for_each (translate_entity tr) entities (h, []).

(** *** Shapes of input, for the statements *)

(** The bare span of an entity. *)
Definition span (e : t) : MessageEntity.t :=
  MessageEntity.entity (type e) (offset e) (length e).

Definition stored (h : heap) (entities : list loc) (es : list t) : Prop :=
  Forall2 (fun l e => h !! l = Some e) entities es.

(** A valid span: offset and length are not negative and the span ends
    within the text. *)
Definition valid_span (text : str) (e : t) : Prop :=
  MessageEntity.valid_span text (span e).

(** A name with a leading underscore belongs to the private state of
    [TelegramObject].  Of that state the objects here have the bot and the
    [_id_attrs]; the statements on copies are made for entities whose
    [api_kwargs] have no entry of such a name. *)
Definition public_names (api_kwargs : gmap string pyval) : bool :=
  forallb (fun kv : string * pyval => negb (String.prefix "_" kv.1))
    (map_to_list api_kwargs).

(** An attribute of the copy, from the attribute of the original and the
    entry of its name in the [api_kwargs] of the original. *)
Definition after_copy (attr : pyval) (entry : option pyval) : pyval :=
  match attr, entry with
  | PNone, Some v => v
  | _, _ => attr
  end.

(** The object the second loop leaves for an entity: its copy, with the two
    assignments. *)
Definition translated_copy (tr : gmap Z Z) (e : t) : t :=
  let start := default 0 (tr !! offset e) in
  with_length (with_offset (copied e) start)
    (default 0 (tr !! (offset e + length e)) - start).

(** A text link whose address came in [api_kwargs]. *)
Definition link_in_api_kwargs : t :=
  MessageEntity__init__ "text_link" 1 2 PNone PNone PNone PNone
    {[ "url" := PStr "https://telegram.org" ]}.

End MessageEntityObject.

(** ** Paid media: [telegram/_paidmedia.py] *)

Module paidmedia.

(** The [bot] argument of the decoders is only handed on to the objects
    built and is left out. *)

(** *** JSON data

    What [json.loads] hands to [de_json]: [None], booleans, integers,
    strings, lists and dicts with string keys.  A nested object is kept as the
    list of its members; the mapping [de_json] itself works on is a dict. *)

#[warnings="-register-all"]
Inductive json : Type :=
| JNull
| JBool (b : bool)
| JNum (n : Z)
| JStr (s : string)
| JArr (l : list json)
| JObj (o : list (string * json)).

(** [bool(j)] *)
Definition truthy (j : json) : bool :=
  match j with
  | JNull => false
  | JBool b => b
  | JNum n => negb (n =? 0)
  | JStr s => negb (String.eqb s "")
  | JArr l => negb (bool_decide (List.length l = 0%nat))
  | JObj o => negb (bool_decide (List.length o = 0%nat))
  end.

Definition json_num (j : json) : option Z :=
  match j with
  | JBool b => Some (if b then 1 else 0)
  | JNum n => Some n
  | _ => None
  end.

Fixpoint assoc {A : Type} (k : string) (o : list (string * A)) : option A :=
  match o with
  | [] => None
  | (k', v) :: o' => if String.eqb k k' then Some v else assoc k o'
  end.

(** [a == b] on JSON data: booleans compare as the integers 0 and 1, lists
    element by element, dicts member by member whatever their order. *)
Fixpoint json_eq (a b : json) : bool :=
  match a, b with
  | JNull, JNull => true
  | JStr s, JStr s' => String.eqb s s'
  | JArr l, JArr l' =>
      (fix go (l l' : list json) : bool :=
         match l, l' with
         | [], [] => true
         | x :: l, y :: l' => json_eq x y && go l l'
         | _, _ => false
         end) l l'
  | JObj o, JObj o' =>
      bool_decide (List.length o = List.length o') &&
      (fix go (o : list (string * json)) : bool :=
         match o with
         | [] => true
         | (k, v) :: o =>
             match assoc k o' with
             | Some v' => json_eq v v'
             | None => false
             end && go o
         end) o
  | (JBool _ | JNum _), (JBool _ | JNum _) =>
      bool_decide (json_num a = json_num b)
  | _, _ => false
  end.

(** Modelled from the spec: [constants.PaidMediaType] is not under src/; it
    is the string enumeration of the three discriminator values. *)
Inductive PaidMediaType : Type := PREVIEW | PHOTO | VIDEO.

Definition PaidMediaType_value (m : PaidMediaType) : string :=
  match m with
  | PREVIEW => "preview"
  | PHOTO => "photo"
  | VIDEO => "video"
  end.

#[global] Instance PaidMediaType_eq_dec : EqDecision PaidMediaType.
Proof. solve_decision. Defined.

Inductive class : Type :=
| PaidMedia
| PaidMediaPreview
| PaidMediaPhoto
| PaidMediaVideo.

#[global] Instance class_eq_dec : EqDecision class.
Proof. solve_decision. Defined.

(** [issubclass(c, d)] *)
Definition issubclass (c d : class) : bool :=
  bool_decide (c = d) || bool_decide (d = PaidMedia).

(** Every [__init__] of the module declares [self] and [api_kwargs], and
    the call of a constructor by [de_json] gives both itself.  The mapping
    collides with them when it has an entry of one of these names. *)
Definition collides {A : Type} (data : gmap string A) : Prop :=
  is_Some (data !! "self") ∨ is_Some (data !! "api_kwargs").

#[global] Instance collides_dec {A : Type} (data : gmap string A)
  : Decision (collides data).
Proof. unfold collides. apply _. Defined.

Section Decoder.

(** [telegram.PhotoSize] and [telegram.Video] live in other modules of the
    library: their instances, their decoders and their equality are taken as
    they come. *)
Context {PhotoSize Video : Type}.
Variable PhotoSize_de_json : json → result (option PhotoSize).
Variable Video_de_json : json → result (option Video).
Variable PhotoSize_eq : PhotoSize → PhotoSize → bool.
Variable Video_eq : Video → Video → bool.

(** *** Values

    What a field of the mapping or an attribute of an object can hold: JSON
    data, a member of the enumeration, a tuple of photo sizes, a video. *)

Inductive value : Type :=
| VJson (j : json)
| VEnum (m : PaidMediaType)
| VPhotoSizes (t : list PhotoSize)
| VVideo (v : Video).

Definition VNone : value := VJson JNull.

Fixpoint tuple_eq {A : Type} (eq : A → A → bool) (t t' : list A) : bool :=
  match t, t' with
  | [], [] => true
  | x :: t, y :: t' => eq x y && tuple_eq eq t t'
  | _, _ => false
  end.

(** [a == b]; a member of the string enumeration is a [str]. *)
Definition value_eq (a b : value) : bool :=
  match a, b with
  | VJson j, VJson j' => json_eq j j'
  | VEnum m, VEnum m' => bool_decide (m = m')
  | VEnum m, VJson (JStr s) | VJson (JStr s), VEnum m =>
      String.eqb (PaidMediaType_value m) s
  | VPhotoSizes t, VPhotoSizes t' => tuple_eq PhotoSize_eq t t'
  | VVideo v, VVideo v' => Video_eq v v'
  | _, _ => false
  end.

(** [data.get(key)] *)
Definition py_get (data : gmap string value) (key : string) : value :=
  default VNone (data !! key).

(** [not data] *)
Definition is_empty (data : gmap string value) : bool :=
  bool_decide (size data = 0%nat).

(** *** Objects *)

Inductive slots : Type :=
| NoSlots
| PreviewSlots (width height duration : value)
| PhotoSlots (photo : list PhotoSize)
| VideoSlots (video : value).

Record object : Type := mk {
  class_of : class;
  type : value;
  api_kwargs : gmap string value;
  _id_attrs : list value;
  slots_of : slots;
}.

(** [self.photo] *)
Definition photo (self : object) : option (list PhotoSize) :=
  match slots_of self with
  | PhotoSlots t => Some t
  | _ => None
  end.

(** Modelled from the spec: [enum.get_member] is not under src/.
    [get_member(constants.PaidMediaType, value, default)] is the member with
    that value if there is one, [default] otherwise. *)
Definition PaidMediaType_call (v : value) : option PaidMediaType :=
  match v with
  | VEnum m => Some m
  | VJson (JStr s) =>
      if String.eqb s "preview" then Some PREVIEW
      else if String.eqb s "photo" then Some PHOTO
      else if String.eqb s "video" then Some VIDEO
      else None
  | _ => None
  end.

Definition get_member (v default : value) : value :=
  match PaidMediaType_call v with
  | Some m => VEnum m
  | None => default
  end.

(** Modelled from the spec: [parse_sequence_arg] is not under src/.  It
    turns a sequence into a tuple, and nothing into the empty tuple. *)
Definition parse_sequence_arg {A : Type} (arg : option (list A)) : list A :=
  match arg with
  | Some (x :: l) => x :: l
  | _ => []
  end.

(** [PaidMedia.__init__], run on a new instance of class [cls]. *)
Definition PaidMedia__init__ (cls : class) (type : value)
    (api_kwargs : gmap string value) : object :=
  let type := get_member type type in
  {| class_of := cls; type := type; api_kwargs := api_kwargs;
     _id_attrs := [type]; slots_of := NoSlots |}.

(** The assignments made within [with self._unfrozen()]. *)
Definition set_slots (self : object) (s : slots) (ids : list value) : object :=
  {| class_of := class_of self; type := type self;
     api_kwargs := api_kwargs self; _id_attrs := ids; slots_of := s |}.

Definition PaidMediaPreview__init__ (width height duration : value)
    (api_kwargs : gmap string value) : object :=
  let self := PaidMedia__init__ PaidMediaPreview (VEnum PREVIEW) api_kwargs in
  set_slots self (PreviewSlots width height duration)
    [type self; width; height; duration].

Definition PaidMediaPhoto__init__ (photo : list PhotoSize)
    (api_kwargs : gmap string value) : object :=
  let self := PaidMedia__init__ PaidMediaPhoto (VEnum PHOTO) api_kwargs in
  let photo := parse_sequence_arg (Some photo) in
  set_slots self (PhotoSlots photo) [type self; VPhotoSizes photo].

Definition PaidMediaVideo__init__ (video : value)
    (api_kwargs : gmap string value) : object :=
  let self := PaidMedia__init__ PaidMediaVideo (VEnum VIDEO) api_kwargs in
  set_slots self (VideoSlots video) [type self; video].

(** *** The base class

    Modelled from the spec: [TelegramObject] is not under src/.  Its
    [_parse_data] is the hook that hands [de_json] a copy of the mapping.
    Its [de_json] builds the instance of [cls] from the mapping: null gives
    null; the entries that [cls.__init__] declares as parameters are passed
    to it by keyword, a required one that is missing is a [TypeError], and
    the remaining entries are carried in [api_kwargs].  Two parameters of
    every [__init__] are given by the call itself - [self], the new instance,
    and [api_kwargs] - so that an entry of the mapping with one of these
    names is a second value for the parameter: a [TypeError].  (For an entry
    named [self] Python reports the first keyword it cannot bind: if an
    entry that is no parameter at all comes before it in the mapping, that
    one is reported and [self] ends up in [api_kwargs].  A dict here has no
    order; the results stated for an object that is built are stated for
    mappings without an entry of either name.)  An empty
    mapping is constructed from like any other: [PaidMedia.de_json] sends the
    mapping without its discriminator to the variant, for a preview possibly
    empty, and guards its own return of null on an empty mapping by
    [cls is PaidMedia]. *)

Definition _parse_data (data : option (gmap string value))
  : option (gmap string value) := data.

(** The parameters of [cls.__init__], as the signatures declare them. *)
Definition init_params (cls : class) : list string :=
  match cls with
  | PaidMedia => ["self"; "type"; "api_kwargs"]
  | PaidMediaPreview => ["self"; "width"; "height"; "duration"; "api_kwargs"]
  | PaidMediaPhoto => ["self"; "photo"; "api_kwargs"]
  | PaidMediaVideo => ["self"; "video"; "api_kwargs"]
  end.

Definition call_init (cls : class) (kwargs api_kwargs : gmap string value)
  : result object :=
  match cls with
  | PaidMedia =>
      match kwargs !! "type" with
      | Some type => Ok (PaidMedia__init__ PaidMedia type api_kwargs)
      | None => Raise TypeError
      end
  | PaidMediaPreview =>
      Ok (PaidMediaPreview__init__ (py_get kwargs "width")
            (py_get kwargs "height") (py_get kwargs "duration") api_kwargs)
  | PaidMediaPhoto =>
      match kwargs !! "photo" with
      | Some (VPhotoSizes photo) => Ok (PaidMediaPhoto__init__ photo api_kwargs)
      | Some _ => Undefined (* [PaidMediaPhoto.de_json] stores a tuple *)
      | None => Raise TypeError
      end
  | PaidMediaVideo =>
      match kwargs !! "video" with
      | Some video => Ok (PaidMediaVideo__init__ video api_kwargs)
      | None => Raise TypeError
      end
  end.

Definition TelegramObject_de_json (cls : class)
    (data : option (gmap string value)) : result (option object) :=
  match data with
  | None => Ok None
  | Some data =>
      let declared (kv : string * value) := kv.1 ∈ init_params cls in
      let kwargs := filter declared data in
      let api_kwargs := filter (fun kv => ¬ declared kv) data in
      if bool_decide (collides kwargs) then Raise TypeError
      else
        self ← call_init cls kwargs api_kwargs;
        Ok (Some self)
  end.

(** Modelled from the spec: [TelegramObject.__eq__] is not under src/.  Two
    objects are equal when the second is an instance of the class of the
    first and their [_id_attrs], set by each [__init__], are equal; two
    objects of classes that differ otherwise are not equal. *)
Definition TelegramObject__eq__ (self other : object) : bool :=
  issubclass (class_of other) (class_of self) &&
  tuple_eq value_eq (_id_attrs self) (_id_attrs other).

(** Modelled from the spec: [PhotoSize.de_list] is not under src/.  It
    decodes the [photo] field as an ordered list of sub-objects: nothing
    gives the empty tuple, a list is decoded element by element (a null
    element gives no sub-object), any other JSON data is malformed.  The
    field of a mapping handed to the decoder holds JSON data. *)
Fixpoint de_list_items (items : list json) : result (list PhotoSize) :=
  match items with
  | [] => Ok []
  | d :: items' =>
      obj ← PhotoSize_de_json d;
      objs ← de_list_items items';
      Ok (match obj with Some o => o :: objs | None => objs end)
  end.

Definition PhotoSize_de_list (data : value) : result (list PhotoSize) :=
  match data with
  | VJson j =>
      if negb (truthy j) then Ok []
      else match j with
           | JArr items => de_list_items items
           | _ => Raise TypeError
           end
  | _ => Undefined
  end.

(** [Video.de_json(data.get("video"))], as the value stored back. *)
Definition Video_de_json_value (data : value) : result value :=
  match data with
  | VJson j =>
      v ← Video_de_json j;
      Ok (match v with Some v => VVideo v | None => VNone end)
  | _ => Undefined
  end.

(** *** de_json *)

(** [key in _class_mapping] and [_class_mapping[key]]: the keys are the three
    members of the enumeration; a list or a dict cannot be hashed. *)
Definition _class_mapping (key : value) : result (option class) :=
  match key with
  | VJson (JArr _) | VJson (JObj _) => Raise TypeError
  | _ =>
      Ok (match PaidMediaType_call key with
          | Some PREVIEW => Some PaidMediaPreview
          | Some PHOTO => Some PaidMediaPhoto
          | Some VIDEO => Some PaidMediaVideo
          | None => None
          end)
  end.

(** [PaidMedia.de_json]; [variant_de_json c] stands for [c.de_json], the
    method of the class found in [_class_mapping]. *)
Definition PaidMedia_de_json
    (variant_de_json : class → option (gmap string value) → result (option object))
    (cls : class) (data : option (gmap string value)) : result (option object) :=
  match _parse_data data with
  | None => Ok None
  | Some data =>
      if is_empty data && bool_decide (cls = PaidMedia) then Ok None
      else if bool_decide (cls = PaidMedia) then
        target ← _class_mapping (py_get data "type");
        match target with
        | Some c => variant_de_json c (Some (delete "type" data))
        | None => TelegramObject_de_json cls (Some data)
        end
      else TelegramObject_de_json cls (Some data)
  end.

(** [PaidMediaPhoto.de_json]; [super_de_json] is [PaidMedia.de_json]. *)
Definition PaidMediaPhoto_de_json
    (super_de_json : class → option (gmap string value) → result (option object))
    (cls : class) (data : option (gmap string value)) : result (option object) :=
  match _parse_data data with
  | None => Ok None
  | Some data =>
      if is_empty data then Ok None
      else
        photo ← PhotoSize_de_list (py_get data "photo");
        let data := <["photo" := VPhotoSizes photo]> data in
        super_de_json cls (Some data)
  end.

(** [PaidMediaVideo.de_json] *)
Definition PaidMediaVideo_de_json
    (super_de_json : class → option (gmap string value) → result (option object))
    (cls : class) (data : option (gmap string value)) : result (option object) :=
  match _parse_data data with
  | None => Ok None
  | Some data =>
      if is_empty data then Ok None
      else
        video ← Video_de_json_value (py_get data "video");
        let data := <["video" := video]> data in
        super_de_json cls (Some data)
  end.

(** [cls.de_json(data)], by method resolution: [PaidMediaPhoto] and
    [PaidMediaVideo] override the method, [PaidMediaPreview] inherits it.
    [depth] bounds the nesting of calls of [de_json] methods of the classes
    in [_class_mapping]; two levels are all there are. *)
Fixpoint de_json_depth (depth : nat) (cls : class)
    (data : option (gmap string value)) : result (option object) :=
  match depth with
  | O => Undefined
  | S depth =>
      let super_de_json := PaidMedia_de_json (de_json_depth depth) in
      match cls with
      | PaidMediaPhoto => PaidMediaPhoto_de_json super_de_json cls data
      | PaidMediaVideo => PaidMediaVideo_de_json super_de_json cls data
      | PaidMedia | PaidMediaPreview => super_de_json cls data
      end
  end.

Definition de_json (cls : class) (data : option (gmap string value))
  : result (option object) :=
  de_json_depth 2 cls data.

(** *** Shapes of input, for the statements *)

(** The mapping [{"type": "photo", "photo": [items]}], whatever else it
    carries. *)
Definition photo_mapping (data : gmap string value) (items : list json) : Prop :=
  data !! "type" = Some (VJson (JStr "photo")) ∧
  data !! "photo" = Some (VJson (JArr items)).

(** Every item of the list decodes, to the sub-objects [rs]. *)
Definition decoded (items : list json) (rs : list (option PhotoSize)) : Prop :=
  Forall2 (fun d r => PhotoSize_de_json d = Ok r) items rs.

(** The constant a concrete variant fixes for its [type]. *)
Definition variant_type (cls : class) : option PaidMediaType :=
  match cls with
  | PaidMedia => None
  | PaidMediaPreview => Some PREVIEW
  | PaidMediaPhoto => Some PHOTO
  | PaidMediaVideo => Some VIDEO
  end.

End Decoder.

Arguments value : clear implicits.
Arguments object : clear implicits.
Arguments slots : clear implicits.

End paidmedia.

(** ** Paid media info: [PaidMediaInfo] of [telegram/_paidmedia.py] *)

Module paidmediainfo.
Import paidmedia.

Section Decoder.

Context {PhotoSize Video : Type}.
Variable PhotoSize_de_json : json → result (option PhotoSize).
Variable Video_de_json : json → result (option Video).

Local Abbreviation media := (paidmedia.object PhotoSize Video).
Local Abbreviation mapping := (gmap string (paidmedia.value PhotoSize Video)).

(** What an entry of the mapping of a [PaidMediaInfo] holds: JSON data, the
    list of the mappings of its paid media (null among them for a JSON
    null), or the tuple of the decoded paid media. *)
Inductive field : Type :=
| FJson (j : json)
| FMappings (items : list (option mapping))
| FPaidMedia (t : list media).

Record PaidMediaInfo : Type := mk {
  star_count : field;
  paid_media : list media;
  api_kwargs : gmap string field;
  _id_attrs : list field;
}.

Definition PaidMediaInfo__init__ (star_count : field) (paid_media : list media)
    (api_kwargs : gmap string field) : PaidMediaInfo :=
  let paid_media := parse_sequence_arg (Some paid_media) in
  {| star_count := star_count; paid_media := paid_media;
     api_kwargs := api_kwargs;
     _id_attrs := [star_count; FPaidMedia paid_media] |}.

(** The parameters of [PaidMediaInfo.__init__]. *)
Definition init_params : list string :=
  ["self"; "star_count"; "paid_media"; "api_kwargs"].

(** Modelled from the spec: [TelegramObject.de_json], as for the paid media
    above, for the constructor of [PaidMediaInfo]: [star_count] and
    [paid_media] are required, and an entry named [self] or [api_kwargs] is
    a second value for a parameter that the call gives itself. *)
Definition TelegramObject_de_json (data : option (gmap string field))
  : result (option PaidMediaInfo) :=
  match data with
  | None => Ok None
  | Some data =>
      let declared (kv : string * field) := kv.1 ∈ init_params in
      let kwargs := filter declared data in
      let api_kwargs := filter (fun kv => ¬ declared kv) data in
      if bool_decide (collides kwargs) then Raise TypeError
      else
        match kwargs !! "star_count", kwargs !! "paid_media" with
        | Some star_count, Some (FPaidMedia paid_media) =>
            Ok (Some (PaidMediaInfo__init__ star_count paid_media api_kwargs))
        | Some _, Some _ => Undefined (* [de_json] stores a tuple *)
        | _, _ => Raise TypeError
        end
  end.

(** Modelled from the spec: [PaidMedia.de_list] is not under src/.  It
    decodes a list of mappings one by one with [PaidMedia.de_json], in
    order, and leaves out the results that are null; nothing gives the
    empty tuple.  The field holds a list of mappings or nothing. *)
Fixpoint de_list_items (items : list (option mapping)) : result (list media) :=
  match items with
  | [] => Ok []
  | d :: items' =>
      obj ← de_json PhotoSize_de_json Video_de_json PaidMedia d;
      objs ← de_list_items items';
      Ok (match obj with Some o => o :: objs | None => objs end)
  end.

Definition PaidMedia_de_list (data : field) : result (list media) :=
  match data with
  | FJson j => if negb (truthy j) then Ok [] else Undefined
  | FMappings items => de_list_items items
  | FPaidMedia _ => Undefined
  end.

(** [PaidMediaInfo.de_json], on the copy that [_parse_data] hands it. *)
Definition de_json (data : option (gmap string field))
  : result (option PaidMediaInfo) :=
  match data with
  | None => Ok None
  | Some data =>
      if bool_decide (size data = 0%nat) then Ok None
      else
        paid_media ← PaidMedia_de_list (default (FJson JNull) (data !! "paid_media"));
        let data := <["paid_media" := FPaidMedia paid_media]> data in
        TelegramObject_de_json (Some data)
  end.

(** Every mapping of the list decodes, to the results [rs]. *)
Definition decoded (items : list (option mapping)) (rs : list (option media))
  : Prop :=
  Forall2 (fun d r => paidmedia.de_json PhotoSize_de_json Video_de_json
                        PaidMedia d = Ok r) items rs.

End Decoder.

Arguments field : clear implicits.
Arguments PaidMediaInfo : clear implicits.

End paidmediainfo.

(** *** A stand-in for the sub-objects

    For the examples a photo size and a video are known by their
    [file_unique_id], the attribute their equality looks at. *)

Module sample.
Import paidmedia.

Definition file_de_json (j : json) : result (option string) :=
  match j with
  | JNull => Ok None
  | JObj o =>
      match assoc "file_unique_id" o with
      | Some (JStr id) => Ok (Some id)
      | _ => Raise TypeError
      end
  | _ => Raise TypeError
  end.

Abbreviation value := (paidmedia.value string string).
Abbreviation object := (paidmedia.object string string).

Definition de_json : class → option (gmap string value) → result (option object) :=
  paidmedia.de_json file_de_json file_de_json.

Definition eq : object → object → bool :=
  TelegramObject__eq__ String.eqb String.eqb.

Definition file (id : string) : json := JObj [("file_unique_id", JStr id)].

Definition photo_data (ids : list string) : gmap string value :=
  {[ "type" := VJson (JStr "photo"); "photo" := VJson (JArr (file <$> ids)) ]}.

Definition unknown_data : gmap string value :=
  {[ "type" := VJson (JStr "sticker_unknown_future_type") ]}.

End sample.

(** Mappings of paid media for the examples, and what they decode to: a
    photo, the bare discriminator of a photo, a null and a bare preview. *)
Module sample_info.
Import paidmedia.

Definition items : list (option (gmap string sample.value)) :=
  [Some (sample.photo_data ["a"]);
   Some {[ "type" := VJson (JStr "photo") ]};
   None;
   Some {[ "type" := VJson (JStr "preview") ]}].

Definition results : list (option sample.object) :=
  [Some (PaidMediaPhoto__init__ ["a"] ∅);
   None;
   None;
   Some (PaidMediaPreview__init__ VNone VNone VNone ∅)].

End sample_info.

(** *** Measures for further statements on the offset translator *)

Module MessageEntityMeasures.
Import MessageEntity.

(** The number of code points of a string outside the Basic Multilingual
    Plane: those that take a surrogate pair in UTF-16. *)
Definition astral_count (s : list Z) : Z :=
  Z.of_nat (List.length (filter (fun c => 0x10000 <= c) s)).

(** A string the encoder accepts: one without surrogate code points. *)
Definition encodable (text : list Z) : Prop :=
  Forall (fun c => is_surrogate c = false) text.

(** The end of a span, [offset + length]. *)
Definition stop (e : t) : Z := offset e + length e.

(** The copy the second loop makes of an entity, given the dict of the
    first loop. *)
Definition translated_by (tr : gmap Z Z) (e : t) : t :=
  let start := default 0 (tr !! offset e) in
  with_length (with_offset e start) (default 0 (tr !! stop e) - start).

End MessageEntityMeasures.

(** * Properties *)

(** ** Encoding and slicing *)

Lemma bind_Ok {A B : Type} (a : A) (f : A → result B) : Ok a ≫= f = f a.
Proof. reflexivity. Qed.

Section Strings.

Implicit Types (s text : list Z) (c : Z).

Lemma scalar_not_surrogate text :
  Forall scalar_value text → Forall (fun c => is_surrogate c = false) text.
Proof. intros H. eapply Forall_impl; [done |]. by intros c [_ ?]. Qed.

Lemma utf16_units_cons c s :
  utf16_units (c :: s) = code_units c + utf16_units s.
Proof. reflexivity. Qed.

Lemma encode_code_point_length c :
  is_surrogate c = false →
  ∃ b, encode_code_point c = Ok b ∧ Z.of_nat (length b) = 2 * code_units c.
Proof.
  intros Hc. unfold encode_code_point, code_units. rewrite Hc.
  destruct (c <? 0x10000); eexists; (split; [reflexivity | done]).
Qed.

Lemma encode_utf_16_le_length s :
  Forall (fun c => is_surrogate c = false) s →
  ∃ bs, encode_utf_16_le s = Ok bs ∧ Z.of_nat (length bs) = 2 * utf16_units s.
Proof.
  induction 1 as [|c s Hc _ (bs & Hbs & Hlen)].
  { exists (@nil Z). by split. }
  destruct (encode_code_point_length c Hc) as (b & Hb & Hblen).
  exists (b ++ bs). cbn. rewrite Hb. cbn. rewrite Hbs. cbn.
  split; [done |]. rewrite length_app, utf16_units_cons. lia.
Qed.

Lemma utf16_len_units s :
  Forall (fun c => is_surrogate c = false) s → utf16_len s = Ok (utf16_units s).
Proof.
  intros (bs & Hbs & Hlen)%encode_utf_16_le_length.
  unfold utf16_len. rewrite Hbs. cbn. f_equal. rewrite Hlen.
  by rewrite Z.mul_comm, Z.div_mul.
Qed.

Lemma utf16_len_surrogate s1 c s2 :
  is_surrogate c = true →
  Forall (fun c => is_surrogate c = false) s1 →
  utf16_len (s1 ++ c :: s2) = Raise UnicodeEncodeError.
Proof.
  intros Hc Hs1. unfold utf16_len.
  assert (encode_utf_16_le (s1 ++ c :: s2) = Raise UnicodeEncodeError) as ->; [|done].
  induction Hs1 as [|d s1 Hd _ IH]; cbn.
  - unfold encode_code_point. by rewrite Hc.
  - destruct (encode_code_point_length d Hd) as (b & -> & _). cbn. by rewrite IH.
Qed.

Lemma utf16_units_app s1 s2 :
  utf16_units (s1 ++ s2) = utf16_units s1 + utf16_units s2.
Proof.
  induction s1 as [|c s1 IH]; [done |].
  rewrite <-app_comm_cons, !utf16_units_cons, IH. lia.
Qed.

Lemma code_units_pos c : 1 <= code_units c.
Proof. unfold code_units. destruct (c <? 0x10000); lia. Qed.

Lemma utf16_units_length s : Z.of_nat (length s) <= utf16_units s.
Proof.
  induction s as [|c s IH]; [done |].
  rewrite utf16_units_cons, length_cons.
  pose proof (code_units_pos c). lia.
Qed.

Lemma utf16_units_bmp s :
  Forall in_bmp s → utf16_units s = Z.of_nat (length s).
Proof.
  induction 1 as [|c s Hc _ IH]; [done |].
  rewrite utf16_units_cons, length_cons, IH.
  unfold code_units. unfold in_bmp in Hc.
  destruct (Z.ltb_spec c 0x10000); lia.
Qed.

Lemma py_slice_nonneg {A} (l : list A) (a b : Z) :
  0 <= a <= b →
  py_slice l a b = drop (Z.to_nat a) (take (Z.to_nat b) l).
Proof.
  intros Hab. unfold py_slice, slice_index.
  destruct (Z.ltb_spec a 0), (Z.ltb_spec b 0); try lia.
  apply list_eq. intros i.
  rewrite lookup_drop, !lookup_take, lookup_drop.
  repeat case_decide; try done; try lia.
  - f_equal. lia.
  - symmetry. apply lookup_ge_None. lia.
Qed.

Lemma py_slice_prefix {A} (l : list A) (p : Z) :
  0 <= p → py_slice l 0 p = take (Z.to_nat p) l.
Proof. intros Hp. rewrite py_slice_nonneg by lia. done. Qed.

Lemma prefix_split {A} (l : list A) (a b : Z) :
  0 <= a <= b →
  take (Z.to_nat b) l = take (Z.to_nat a) l ++ py_slice l a b.
Proof.
  intros Hab. rewrite py_slice_nonneg by done.
  rewrite <-(take_drop (Z.to_nat a) (take (Z.to_nat b) l)) at 1.
  rewrite take_take. do 2 f_equal. lia.
Qed.

End Strings.

(** ** The offset translator *)

Module MessageEntityFacts.
Import MessageEntity.

Section Translation.

Variable text : list Z.
Hypothesis text_encodable : Forall (fun c => is_surrogate c = false) text.

Lemma utf16_len_prefix (p : Z) :
  0 <= p → utf16_len (py_slice text 0 p) = Ok (prefix_units text p).
Proof.
  intros Hp. rewrite py_slice_prefix by done.
  apply utf16_len_units. by apply Forall_take.
Qed.

Lemma utf16_len_slice (a b : Z) :
  0 <= a <= b →
  utf16_len (py_slice text a b) = Ok (prefix_units text b - prefix_units text a).
Proof.
  intros Hab. unfold prefix_units.
  rewrite (prefix_split text a b Hab), utf16_units_app.
  rewrite utf16_len_units.
  - f_equal. lia.
  - rewrite py_slice_nonneg by done. by apply Forall_drop, Forall_take.
Qed.

Lemma prefix_units_mono (a b : Z) :
  0 <= a <= b → prefix_units text a <= prefix_units text b.
Proof.
  intros Hab. unfold prefix_units.
  rewrite (prefix_split text a b Hab), utf16_units_app.
  pose proof (utf16_units_length (py_slice text a b)). lia.
Qed.

Lemma prefix_units_past_end (p : Z) :
  Z.of_nat (List.length text) <= p → prefix_units text p = utf16_units text.
Proof. intros Hp. unfold prefix_units. rewrite take_ge; [done | lia]. Qed.

(** One round of the first loop, at index [length pre]: the previous
    position is the last one of [pre], or 0 at the start. *)
Lemma translate_position_step (pre rest : list Z) (p q : Z) (tr : gmap Z Z) :
  q = default 0 (last pre) →
  0 <= q <= p →
  translate_position text (pre ++ p :: rest) (prefix_units text q, tr)
    (List.length pre) p
  = Ok (prefix_units text p, <[p := prefix_units text p]> tr).
Proof.
  intros Hq Hqp. unfold translate_position.
  assert ((if decide (0 < List.length pre)%nat
           then (pre ++ p :: rest) !!! (List.length pre - 1)%nat else 0) = q) as ->.
  { subst q. destruct pre as [|x pre _] using rev_ind; [done |].
    rewrite last_snoc, length_app. cbn [List.length].
    rewrite decide_True by lia.
    rewrite <-(assoc_L (++)). apply list_lookup_total_correct.
    replace (List.length pre + 1 - 1)%nat with (List.length pre + 0)%nat by lia.
    by rewrite lookup_app_r, Nat.add_0_r, Nat.sub_diag by lia. }
  rewrite utf16_len_slice, bind_Ok by lia.
  by replace (prefix_units text q + (prefix_units text p - prefix_units text q))
    with (prefix_units text p) by lia.
Qed.

(** The first loop: after the positions [pre], it continues on [rest] with
    the accumulated length of the prefix before the last position [q]. *)
Lemma translate_position_loop (pre rest : list Z) (q : Z) (tr : gmap Z Z) :
  q = default 0 (last pre) →
  0 <= q →
  Forall (fun p => q <= p) rest →
  StronglySorted Z.le rest →
  ∃ acc',
    for_enumerate (translate_position text (pre ++ rest)) (List.length pre) rest
      (prefix_units text q, tr)
    = Ok (acc', foldl (fun m p => <[p := prefix_units text p]> m) tr rest).
Proof.
  revert pre q tr.
  induction rest as [|p rest IH]; intros pre q tr Hq Hq0 Hle Hsorted.
  { by eexists. }
  apply Forall_cons in Hle as [Hqp Hle].
  apply StronglySorted_inv in Hsorted as [Hsorted Hp].
  cbn [for_enumerate].
  rewrite (translate_position_step pre rest p q) by done. rewrite bind_Ok.
  destruct (IH (pre ++ [p]) p (<[p := prefix_units text p]> tr)) as [acc' Hloop];
    [by rewrite last_snoc | lia | | done |].
  { eapply Forall_impl; [exact Hp | done]. }
  exists acc'. rewrite <-(assoc_L (++)), length_app in Hloop.
  cbn [List.length app] in Hloop. by rewrite Nat.add_1_r in Hloop.
Qed.

Lemma lookup_foldl_insert (f : Z → Z) (ps : list Z) (m : gmap Z Z) (p : Z) :
  foldl (fun m p => <[p := f p]> m) m ps !! p
  = if decide (p ∈ ps) then Some (f p) else m !! p.
Proof.
  revert m. induction ps as [|x ps IH]; intros m; cbn [foldl].
  { rewrite decide_False; [done | apply not_elem_of_nil]. }
  rewrite IH. destruct (decide (p ∈ ps)) as [Hin|Hnin].
  - rewrite decide_True; [done | by right].
  - destruct (decide (p = x)) as [->|Hne].
    + rewrite lookup_insert_eq, decide_True; [done | by left].
    + rewrite lookup_insert_ne by done.
      rewrite decide_False; [done |]. by intros [?|?]%elem_of_cons.
Qed.

Lemma elem_of_sorted_positions (xs : list t) (p : Z) :
  p ∈ sorted_positions xs ↔
  ∃ x, x ∈ xs ∧ (p = offset x ∨ p = offset x + length x).
Proof.
  unfold sorted_positions. rewrite merge_sort_Permutation, list_elem_of_bind.
  split.
  - intros (x & Hp & Hx). exists x. split; [done |].
    rewrite !elem_of_cons, elem_of_nil in Hp. tauto.
  - intros (x & Hx & Hp). exists x. split; [| done].
    rewrite !elem_of_cons. tauto.
Qed.

(** [sorted] is a function of the multiset of its input: whatever routine
    sorts the positions, it returns this list. *)
Lemma sorted_positions_unique (xs : list t) (positions : list Z) :
  StronglySorted Z.le positions →
  positions ≡ₚ (x ← xs; [offset x; offset x + length x]) →
  positions = sorted_positions xs.
Proof.
  intros Hsorted Hperm. apply (StronglySorted_unique Z.le); [done | |].
  - apply StronglySorted_merge_sort; apply _.
  - unfold sorted_positions. by rewrite merge_sort_Permutation.
Qed.

Lemma position_translation_ok (xs : list t) :
  Forall (fun x => 0 <= offset x ∧ 0 <= offset x + length x) xs →
  position_translation text xs
  = Ok (foldl (fun m p => <[p := prefix_units text p]> m) ∅ (sorted_positions xs)).
Proof.
  intros Hxs. unfold position_translation.
  assert (Forall (fun p => 0 <= p) (sorted_positions xs)) as Hpos.
  { apply Forall_forall. intros p (x & Hx & Hp)%elem_of_sorted_positions.
    rewrite Forall_forall in Hxs. destruct (Hxs x Hx), Hp; lia. }
  destruct (translate_position_loop [] (sorted_positions xs) 0 ∅)
    as [acc' Hloop]; try done.
  { apply StronglySorted_merge_sort; apply _. }
  cbn [app List.length] in Hloop. change (prefix_units text 0) with 0 in Hloop.
  by rewrite Hloop.
Qed.

Lemma position_translation_lookup (xs : list t) (tr : gmap Z Z) (p : Z) :
  Forall (fun x => 0 <= offset x ∧ 0 <= offset x + length x) xs →
  position_translation text xs = Ok tr →
  tr !! p = if decide (p ∈ sorted_positions xs)
            then Some (prefix_units text p) else None.
Proof.
  intros Hxs. rewrite position_translation_ok by done. intros [= <-].
  by rewrite lookup_foldl_insert, lookup_empty.
Qed.

Lemma deref_Some (h : list t) (l : nat) (e : t) :
  h !! l = Some e → deref h l = Ok e.
Proof. unfold deref. by intros ->. Qed.

(** Reading the entities behind the references. *)
Lemma collect_entities (h : list t) (entities : list nat) (es acc : list t) :
  Forall2 (fun l e => h !! l = Some e) entities es →
  for_each (fun acc l => x ← deref h l; Ok (acc ++ [x])) entities acc
  = Ok (acc ++ es).
Proof.
  intros Hes. revert acc.
  induction Hes as [|l e entities es Hl _ IH]; intros acc; cbn [for_each].
  { by rewrite app_nil_r. }
  rewrite (deref_Some h l e Hl), !bind_Ok, IH. by rewrite <-(assoc_L (++)).
Qed.

(** One round of the second loop allocates the translated copy at the end of
    the store and leaves every other object as it is. *)
Lemma translate_entity_step (tr : gmap Z Z) (h : list t) (out : list nat)
    (l : nat) (e : t) :
  h !! l = Some e →
  tr !! offset e = Some (prefix_units text (offset e)) →
  tr !! (offset e + length e) = Some (prefix_units text (offset e + length e)) →
  translate_entity tr (h, out) l
  = Ok (h ++ [translated text e], out ++ [List.length h]).
Proof.
  intros Hl Hstart Hstop. unfold translate_entity, copy_copy, getitem.
  rewrite !(deref_Some h l e Hl), bind_Ok, Hstart, bind_Ok, Hstop, !bind_Ok.
  unfold set_offset.
  rewrite (deref_Some _ _ e) by (by apply list_lookup_middle).
  rewrite bind_Ok, insert_app_r_alt, Nat.sub_diag by done.
  cbn [insert list_insert]. rewrite bind_Ok. unfold set_length.
  rewrite (deref_Some _ _ (with_offset e (prefix_units text (offset e))))
    by (by apply list_lookup_middle).
  by rewrite bind_Ok, insert_app_r_alt, Nat.sub_diag by done.
Qed.

Lemma translate_entity_loop (tr : gmap Z Z) (h : list t) (entities : list nat)
    (es new : list t) (out : list nat) :
  Forall2 (fun l e => h !! l = Some e) entities es →
  Forall (fun e =>
    tr !! offset e = Some (prefix_units text (offset e)) ∧
    tr !! (offset e + length e)
      = Some (prefix_units text (offset e + length e))) es →
  for_each (translate_entity tr) entities (h ++ new, out)
  = Ok (h ++ new ++ (translated text <$> es),
        out ++ seq (List.length (h ++ new)) (List.length es)).
Proof.
  intros Hes. revert new out.
  induction Hes as [|l e entities es Hl _ IH]; intros new out Htr; cbn [for_each].
  { by rewrite !app_nil_r. }
  apply Forall_cons in Htr as [[Hstart Hstop] Htr].
  rewrite (translate_entity_step tr (h ++ new) out l e), bind_Ok;
    [| by apply lookup_app_l_Some | done | done].
  rewrite <-(assoc_L (++) h), IH by done.
  rewrite <-!(assoc_L (++)), !length_app. cbn [List.length fmap list_fmap seq app].
  by replace (List.length h + (List.length new + 1))%nat
    with (S (List.length h + List.length new)) by lia.
Qed.

(** The whole function, on entities with boundaries that are not negative. *)
Lemma adjust_ok (h : list t) (entities : list nat) (es : list t) :
  stored h entities es →
  Forall (fun e => 0 <= offset e ∧ 0 <= offset e + length e) es →
  adjust_message_entities_to_utf_16 h text entities
  = Ok (h ++ (translated text <$> es), seq (List.length h) (List.length es)).
Proof.
  intros Hes Hpos. unfold adjust_message_entities_to_utf_16.
  rewrite (collect_entities h entities es []), bind_Ok by done. cbn [app].
  destruct (position_translation text es) as [tr| |] eqn:Htr;
    rewrite position_translation_ok in Htr by done; [| done..].
  rewrite bind_Ok.
  pose proof (translate_entity_loop tr h entities es [] []) as Hloop.
  rewrite !app_nil_r in Hloop. cbn [app] in Hloop. apply Hloop; [done |].
  apply Forall_forall. intros e He.
  injection Htr as <-. rewrite !lookup_foldl_insert.
  rewrite !decide_True; [done | |]; apply elem_of_sorted_positions; eauto.
Qed.

(** What a successful call leaves behind: the store is extended by one new
    object per input entity, the translated copy, and the old objects are
    untouched. *)
Lemma adjust_result (Q : t → Prop) (h : list t) (entities : list nat)
    (es : list t) :
  stored h entities es →
  Forall (fun e => 0 <= offset e ∧ 0 <= offset e + length e) es →
  Forall Q es →
  ∃ h' out,
    adjust_message_entities_to_utf_16 h text entities = Ok (h', out) ∧
    List.length out = List.length entities ∧
    (∀ l e, h !! l = Some e → h' !! l = Some e) ∧
    Forall2 (fun e l' =>
      Q e ∧ (List.length h <= l')%nat ∧ h' !! l' = Some (translated text e))
      es out.
Proof.
  intros Hes Hpos HQ. eexists _, _. split; [by apply adjust_ok |].
  split; [by rewrite length_seq, (Forall2_length _ _ _ Hes) |].
  split; [intros l e Hl; by apply lookup_app_l_Some |].
  apply Forall2_same_length_lookup_2; [by rewrite length_seq |].
  intros i e l' He [-> Hi]%lookup_seq.
  split; [by eapply Forall_lookup_1 |]. split; [lia |].
  by rewrite lookup_app_r, Nat.add_comm, Nat.add_sub, list_lookup_fmap, He by lia.
Qed.

End Translation.

Ltac each_span H e l :=
  eapply Forall2_impl; [exact H |]; cbn beta;
  intros e l ?; destruct_and?.

Lemma length_slice_within {A} (l : list A) (a b : Z) :
  0 <= a <= b → b <= Z.of_nat (List.length l) →
  Z.of_nat (List.length (py_slice l a b)) = b - a.
Proof.
  intros Hab Hb. rewrite py_slice_nonneg, length_drop, length_take by done. lia.
Qed.

Lemma prefix_units_bmp (text : list Z) (p : Z) :
  Forall in_bmp text → 0 <= p <= Z.of_nat (List.length text) →
  prefix_units text p = p.
Proof.
  intros Hbmp Hp. unfold prefix_units.
  rewrite utf16_units_bmp, length_take by (by apply Forall_take). lia.
Qed.

(** C1: for every text of Unicode scalar values and spans with both
    boundaries within the text, the call returns one span per input span,
    whose offset is the UTF-16 length of the text before the original offset
    and whose length is the translated end minus the translated start, which
    for a span of non-negative length is the UTF-16 length of the text the
    span covers.  The UTF-16 length is stated twice: as what the encoder of
    the code gives on the slice, [utf16_len], and as the number of 16-bit
    units counted code point by code point, one for a code point of the
    Basic Multilingual Plane and two above it, [utf16_units]. *)
Theorem adjust_translates_boundaries (h : list t) (text : list Z)
    (entities : list nat) (es : list t) :
  stored h entities es →
  Forall scalar_value text →
  Forall (within_text text) es →
  ∃ h' out,
    adjust_message_entities_to_utf_16 h text entities = Ok (h', out) ∧
    List.length out = List.length entities ∧
    Forall2 (fun e l' => ∃ e' stop,
      h' !! l' = Some e' ∧
      utf16_len (py_slice text 0 (offset e)) = Ok (offset e') ∧
      utf16_len (py_slice text 0 (offset e + length e)) = Ok stop ∧
      length e' = stop - offset e' ∧
      (0 <= length e →
       utf16_len (py_slice text (offset e) (offset e + length e))
       = Ok (length e')) ∧
      offset e' = utf16_units (take (Z.to_nat (offset e)) text) ∧
      stop = utf16_units (take (Z.to_nat (offset e + length e)) text) ∧
      (0 <= length e →
       length e'
       = utf16_units (take (Z.to_nat (length e))
                        (drop (Z.to_nat (offset e)) text)))) es out.
Proof.
  intros Hes Htext%scalar_not_surrogate Hin.
  destruct (adjust_result text Htext (within_text text) h entities es)
    as (h' & out & Hcall & Hlen & _ & Hout); [done | | done |].
  { eapply Forall_impl; [exact Hin |]. intros e [? ?]. lia. }
  exists h', out. split; [done |]. split; [done |]. each_span Hout e l'.
  match goal with H : within_text _ _ |- _ => destruct H end.
  eexists _, _. split; [done |].
  cbn [translated with_length with_offset offset length].
  split; [by apply utf16_len_prefix; [| lia] |].
  split; [by apply utf16_len_prefix; [| lia] |].
  split; [done |].
  split; [intros ?; apply utf16_len_slice; [done | lia] |].
  split; [done |]. split; [done |].
  intros Hlength. unfold prefix_units.
  rewrite (prefix_split text (offset e) (offset e + length e)) by lia.
  rewrite utf16_units_app, py_slice_nonneg, take_drop_commute by lia.
  rewrite <-Z2Nat.inj_add by lia. lia.
Qed.

Lemma adjust_translates_boundaries_witness :
  ∃ h' out,
    adjust_message_entities_to_utf_16 example_entities example_text
      [0; 1; 2]%nat = Ok (h', out) ∧
    List.length out = List.length [0; 1; 2]%nat ∧
    Forall2 (fun e l' => ∃ e' stop,
      h' !! l' = Some e' ∧
      utf16_len (py_slice example_text 0 (offset e)) = Ok (offset e') ∧
      utf16_len (py_slice example_text 0 (offset e + length e)) = Ok stop ∧
      length e' = stop - offset e' ∧
      (0 <= length e →
       utf16_len (py_slice example_text (offset e) (offset e + length e))
       = Ok (length e')) ∧
      offset e' = utf16_units (take (Z.to_nat (offset e)) example_text) ∧
      stop = utf16_units (take (Z.to_nat (offset e + length e)) example_text) ∧
      (0 <= length e →
       length e'
       = utf16_units (take (Z.to_nat (length e))
                        (drop (Z.to_nat (offset e)) example_text))))
      example_entities out.
Proof.
  apply (adjust_translates_boundaries example_entities example_text
           [0; 1; 2]%nat example_entities).
  - repeat constructor.
  - repeat (constructor; [split; [cbn; lia | reflexivity] |]). constructor.
  - repeat (constructor; [split; cbn; lia |]). constructor.
Defined.

(** C2, as stated, fails: a span that ends beyond the text raises nothing.
    On the text "abc" the span (0, 10) is translated to (0, 3). *)
Lemma adjust_out_of_range_returns :
  let text := [97; 98; 99] in
  let e := entity BOLD 0 10 in
  Z.of_nat (List.length text) < offset e + length e ∧
  adjust_message_entities_to_utf_16 [e] text [0%nat]
  = Ok ([e; entity BOLD 0 3], [1%nat]) ∧
  ¬ ∃ x, adjust_message_entities_to_utf_16 [e] text [0%nat] = Raise x.
Proof.
  cbn zeta. split; [cbn; lia |].
  assert (adjust_message_entities_to_utf_16 [entity BOLD 0 10] [97; 98; 99]
            [0%nat] = Ok ([entity BOLD 0 10; entity BOLD 0 3], [1%nat])) as ->
    by (by vm_compute).
  split; [done |]. by intros [x ?].
Qed.

(** C2, amended: for every text of Unicode scalar values and every span list
    with non-negative offsets and lengths in which some span ends beyond the
    text, the call raises nothing and returns the spans translated with
    Python's clamped slices: the offset is the UTF-16 length of [text[:offset]],
    the length that of [text[offset:offset+length]], and a span that reaches
    the end of the text or goes beyond it ends at the UTF-16 length of the
    whole text. *)
Theorem adjust_clamps_out_of_range (h : list t) (text : list Z)
    (entities : list nat) (es : list t) :
  stored h entities es →
  Forall scalar_value text →
  Forall (fun e => 0 <= offset e ∧ 0 <= length e) es →
  Exists (fun e => Z.of_nat (List.length text) < offset e + length e) es →
  ∃ h' out,
    adjust_message_entities_to_utf_16 h text entities = Ok (h', out) ∧
    Forall2 (fun e l' => ∃ e',
      h' !! l' = Some e' ∧
      utf16_len (py_slice text 0 (offset e)) = Ok (offset e') ∧
      utf16_len (py_slice text (offset e) (offset e + length e))
      = Ok (length e') ∧
      (Z.of_nat (List.length text) <= offset e + length e →
       utf16_len text = Ok (offset e' + length e'))) es out.
Proof.
  intros Hes Htext%scalar_not_surrogate Hpos _.
  destruct (adjust_result text Htext
              (fun e => 0 <= offset e ∧ 0 <= length e) h entities es)
    as (h' & out & Hcall & _ & _ & Hout); [done | | done |].
  { eapply Forall_impl; [exact Hpos |]. intros e [? ?]. lia. }
  exists h', out. split; [done |]. each_span Hout e l'.
  eexists. split; [done |].
  repeat split; cbn [translated with_length with_offset offset length].
  - by apply utf16_len_prefix.
  - apply utf16_len_slice; [done | lia].
  - intros Hend. rewrite utf16_len_units by done. f_equal.
    rewrite (prefix_units_past_end text (_ + _)) by done. lia.
Qed.

Lemma adjust_clamps_out_of_range_witness :
  ∃ h' out,
    adjust_message_entities_to_utf_16 [entity BOLD 1 10] [0x1D122; 98; 99]
      [0%nat] = Ok (h', out) ∧
    Forall2 (fun e l' => ∃ e',
      h' !! l' = Some e' ∧
      utf16_len (py_slice [0x1D122; 98; 99] 0 (offset e)) = Ok (offset e') ∧
      utf16_len (py_slice [0x1D122; 98; 99] (offset e) (offset e + length e))
      = Ok (length e') ∧
      (Z.of_nat (List.length [0x1D122; 98; 99]) <= offset e + length e →
       utf16_len [0x1D122; 98; 99] = Ok (offset e' + length e')))
      [entity BOLD 1 10] out.
Proof.
  apply (adjust_clamps_out_of_range [entity BOLD 1 10] [0x1D122; 98; 99]
           [0%nat] [entity BOLD 1 10]).
  - repeat constructor.
  - repeat (constructor; [split; [cbn; lia | reflexivity] |]). constructor.
  - repeat (constructor; [split; cbn; lia |]). constructor.
  - left. cbn. lia.
Defined.

(** A lone surrogate in the text cannot be encoded: the call raises. *)
Lemma adjust_lone_surrogate_raises :
  adjust_message_entities_to_utf_16 [entity BOLD 0 1] [0xD83D] [0%nat]
  = Raise UnicodeEncodeError.
Proof. by vm_compute. Qed.

(** C5: the example of the documentation. *)
Theorem adjust_documented_example :
  adjust_message_entities_to_utf_16 example_entities example_text [0; 1; 2]%nat
  = Ok (example_entities
          ++ [entity BOLD 3 4; entity ITALIC 11 6; entity UNDERLINE 30 6],
        [3; 4; 5]%nat).
Proof. by vm_compute. Qed.

(** C6: on a text of Unicode scalar values that all lie in the Basic
    Multilingual Plane, spans with both boundaries within the text keep
    their offsets and lengths. *)
Theorem adjust_identity_on_bmp (h : list t) (text : list Z)
    (entities : list nat) (es : list t) :
  stored h entities es →
  Forall scalar_value text →
  Forall in_bmp text →
  Forall (within_text text) es →
  ∃ h' out,
    adjust_message_entities_to_utf_16 h text entities = Ok (h', out) ∧
    Forall2 (fun e l' => ∃ e',
      h' !! l' = Some e' ∧ offset e' = offset e ∧ length e' = length e)
      es out.
Proof.
  intros Hes Htext%scalar_not_surrogate Hbmp Hin.
  destruct (adjust_result text Htext (within_text text) h entities es)
    as (h' & out & Hcall & _ & _ & Hout); [done | | done |].
  { eapply Forall_impl; [exact Hin |]. intros e [? ?]. lia. }
  exists h', out. split; [done |]. each_span Hout e l'.
  match goal with H : within_text _ _ |- _ => destruct H end.
  eexists. split; [done |].
  cbn [translated with_length with_offset offset length].
  rewrite !prefix_units_bmp by done. split; lia.
Qed.

Lemma adjust_identity_on_bmp_witness :
  ∃ h' out,
    adjust_message_entities_to_utf_16 [entity ITALIC 1 2; entity BOLD 0 4]
      [0x3B1; 0x3B2; 0x20AC; 0xFFFD] [1; 0]%nat = Ok (h', out) ∧
    Forall2 (fun e l' => ∃ e',
      h' !! l' = Some e' ∧ offset e' = offset e ∧ length e' = length e)
      [entity BOLD 0 4; entity ITALIC 1 2] out.
Proof.
  apply (adjust_identity_on_bmp [entity ITALIC 1 2; entity BOLD 0 4]
           [0x3B1; 0x3B2; 0x20AC; 0xFFFD] [1; 0]%nat
           [entity BOLD 0 4; entity ITALIC 1 2]).
  - repeat constructor.
  - repeat (constructor; [split; [cbn; lia | reflexivity] |]). constructor.
  - repeat (constructor; [unfold in_bmp; lia |]). constructor.
  - repeat (constructor; [split; cbn; lia |]). constructor.
Defined.

Lemma valid_span_boundaries (text : list Z) (es : list t) :
  Forall (valid_span text) es →
  Forall (fun e => 0 <= offset e ∧ 0 <= offset e + length e) es.
Proof. intros H. eapply Forall_impl; [exact H |]. intros e (? & ? & ?). lia. Qed.

(** C10: for valid spans over a text of Unicode scalar values the translation
    only widens: every output offset and length is at least the input one;
    and the dict of translated positions the call builds is monotone. *)
Theorem adjust_widens_monotone (h : list t) (text : list Z)
    (entities : list nat) (es : list t) :
  stored h entities es →
  Forall scalar_value text →
  Forall (valid_span text) es →
  ∃ h' out tr,
    adjust_message_entities_to_utf_16 h text entities = Ok (h', out) ∧
    Forall2 (fun e l' => ∃ e',
      h' !! l' = Some e' ∧ offset e <= offset e' ∧ length e <= length e')
      es out ∧
    position_translation text es = Ok tr ∧
    ∀ p q tp tq, tr !! p = Some tp → tr !! q = Some tq → p <= q → tp <= tq.
Proof.
  intros Hes Htext%scalar_not_surrogate Hvalid.
  pose proof (valid_span_boundaries text es Hvalid) as Hpos.
  destruct (adjust_result text Htext (valid_span text) h entities es)
    as (h' & out & Hcall & _ & _ & Hout); [done..|].
  eexists h', out, _. split; [done |]. split; [| split].
  - each_span Hout e l'.
    match goal with H : valid_span _ _ |- _ => destruct H as (? & ? & ?) end.
    eexists. split; [done |].
    cbn [translated with_length with_offset offset length].
    unfold prefix_units.
    rewrite (prefix_split text (offset e) (offset e + length e)) by lia.
    rewrite utf16_units_app.
    pose proof (utf16_units_length (take (Z.to_nat (offset e)) text)) as Hstart.
    pose proof (utf16_units_length
                  (py_slice text (offset e) (offset e + length e))) as Hslice.
    rewrite length_take in Hstart. rewrite length_slice_within in Hslice by lia.
    lia.
  - by apply position_translation_ok.
  - intros p q tp tq. rewrite !lookup_foldl_insert, !lookup_empty.
    do 2 case_decide; try done. intros [= <-] [= <-] Hpq.
    apply prefix_units_mono. split; [| done].
    match goal with H : p ∈ _ |- _ =>
      apply elem_of_sorted_positions in H as (e & He & Hp) end.
    rewrite Forall_forall in Hpos. destruct (Hpos e He), Hp; lia.
Qed.

Lemma adjust_widens_monotone_witness :
  ∃ h' out tr,
    adjust_message_entities_to_utf_16 example_entities example_text
      [0; 1; 2]%nat = Ok (h', out) ∧
    Forall2 (fun e l' => ∃ e',
      h' !! l' = Some e' ∧ offset e <= offset e' ∧ length e <= length e')
      example_entities out ∧
    position_translation example_text example_entities = Ok tr ∧
    ∀ p q tp tq, tr !! p = Some tp → tr !! q = Some tq → p <= q → tp <= tq.
Proof.
  apply (adjust_widens_monotone example_entities example_text
           [0; 1; 2]%nat example_entities).
  - repeat constructor.
  - repeat (constructor; [split; [cbn; lia | reflexivity] |]). constructor.
  - repeat (constructor; [repeat split; cbn; lia |]). constructor.
Defined.

End MessageEntityFacts.

(** ** The polymorphic decoder *)

Module paidmediaFacts.
Import paidmedia.

(** *** Mappings: the entries a constructor declares and the rest *)

Section Mappings.

Context {A : Type}.
Implicit Types (data : gmap string A).

Lemma kwargs_lookup (params : list string) data key :
  key ∈ params →
  filter (fun kv : string * A => kv.1 ∈ params) data !! key = data !! key.
Proof.
  intros Hkey. rewrite map_lookup_filter.
  destruct (data !! key); cbn; [| done]. by rewrite option_guard_True.
Qed.

Lemma api_kwargs_lookup (params : list string) data key :
  key ∉ params →
  filter (fun kv : string * A => ¬ kv.1 ∈ params) data !! key = data !! key.
Proof.
  intros Hkey. rewrite map_lookup_filter.
  destruct (data !! key); cbn; [| done]. by rewrite option_guard_True.
Qed.

Lemma api_kwargs_declared (params : list string) data key :
  key ∈ params →
  filter (fun kv : string * A => ¬ kv.1 ∈ params) data !! key = None.
Proof.
  intros Hkey. rewrite map_lookup_filter.
  destruct (data !! key); cbn; [| done]. rewrite option_guard_False; [done |].
  by intros H.
Qed.

(** Without an entry named [self] or [api_kwargs], what a constructor with
    the single parameter [key] of its own leaves for [api_kwargs]. *)
Lemma api_kwargs_delete data key :
  data !! "self" = None → data !! "api_kwargs" = None →
  filter (fun kv : string * A => ¬ kv.1 ∈ ["self"; key; "api_kwargs"]) data
  = delete key data.
Proof.
  intros Hself Hkw. apply map_eq. intros k.
  destruct (decide (k ∈ ["self"; key; "api_kwargs"])) as [Hk|Hk].
  - rewrite api_kwargs_declared by done.
    rewrite !elem_of_cons, elem_of_nil in Hk.
    destruct Hk as [-> | [-> | [-> | []]]].
    + destruct (decide ("self" = key)) as [<-|?];
        [by rewrite lookup_delete_eq | by rewrite lookup_delete_ne].
    + by rewrite lookup_delete_eq.
    + destruct (decide ("api_kwargs" = key)) as [<-|?];
        [by rewrite lookup_delete_eq | by rewrite lookup_delete_ne].
  - rewrite api_kwargs_lookup by done. rewrite lookup_delete_ne; [done |].
    intros <-. apply Hk. rewrite !elem_of_cons. tauto.
Qed.

Lemma collides_None data :
  data !! "self" = None → data !! "api_kwargs" = None → ¬ collides data.
Proof. intros Hself Hkw [[v Hv] | [v Hv]]; congruence. Qed.

End Mappings.

Section Decoder.

Context {PhotoSize Video : Type}.
Variable PhotoSize_de_json : json → result (option PhotoSize).
Variable Video_de_json : json → result (option Video).
Variable PhotoSize_eq : PhotoSize → PhotoSize → bool.
Variable Video_eq : Video → Video → bool.

Local Abbreviation value := (paidmedia.value PhotoSize Video).
Local Abbreviation object := (paidmedia.object PhotoSize Video).
Local Abbreviation de_json := (paidmedia.de_json PhotoSize_de_json Video_de_json).
Local Abbreviation de_json_depth :=
  (paidmedia.de_json_depth PhotoSize_de_json Video_de_json).

Implicit Types (data : gmap string value) (cls : class) (o : object).

(** *** Dictionaries *)

Lemma is_empty_empty : is_empty (∅ : gmap string value) = true.
Proof. unfold is_empty. by rewrite map_size_empty. Qed.

Lemma is_empty_lookup data key (v : value) :
  data !! key = Some v → is_empty data = false.
Proof.
  intros Hkey. unfold is_empty. apply bool_decide_eq_false.
  apply map_size_ne_0_lookup. by exists key, v.
Qed.

Lemma is_empty_insert data key (v : value) :
  is_empty (<[key := v]> data) = false.
Proof. apply (is_empty_lookup _ key v), lookup_insert_eq. Qed.

Lemma py_get_lookup data key (v : value) :
  data !! key = Some v → py_get data key = v.
Proof. unfold py_get. by intros ->. Qed.

(** *** Collisions with the parameters the call gives itself *)

Lemma self_declared cls : "self" ∈ init_params cls.
Proof. destruct cls; cbn; rewrite !elem_of_cons; tauto. Qed.

Lemma api_kwargs_param_declared cls : "api_kwargs" ∈ init_params cls.
Proof. destruct cls; cbn; rewrite !elem_of_cons; tauto. Qed.

Lemma collides_kwargs cls data :
  collides (filter (fun kv : string * value => kv.1 ∈ init_params cls) data)
  ↔ collides data.
Proof.
  unfold collides.
  by rewrite (kwargs_lookup _ _ "self") by apply self_declared;
    rewrite (kwargs_lookup _ _ "api_kwargs") by apply api_kwargs_param_declared.
Qed.

(** The base decoder on a mapping that does not collide. *)
Lemma TelegramObject_de_json_call cls data :
  ¬ collides data →
  TelegramObject_de_json cls (Some data)
  = (self ← call_init cls
              (filter (fun kv : string * value => kv.1 ∈ init_params cls) data)
              (filter (fun kv : string * value => ¬ kv.1 ∈ init_params cls) data);
     Ok (Some self)).
Proof.
  intros Hdata. unfold TelegramObject_de_json.
  by rewrite bool_decide_eq_false_2 by by rewrite collides_kwargs.
Qed.

(** *** Dispatch *)

Lemma class_mapping_variant (key : value) (c : class) :
  _class_mapping key = Ok (Some c) → c ≠ PaidMedia.
Proof.
  unfold _class_mapping. intros H Hc. subst c.
  repeat case_match; simplify_eq.
Qed.

Lemma class_mapping_unknown (s : string) :
  s ≠ "preview" → s ≠ "photo" → s ≠ "video" →
  _class_mapping (VJson (JStr s) : value) = Ok None.
Proof.
  intros H1 H2 H3. unfold _class_mapping, PaidMediaType_call.
  by rewrite !(proj2 (String.eqb_neq _ _)) by done.
Qed.

(** A class other than the base never consults [_class_mapping]. *)
Lemma PaidMedia_de_json_variant
    (f g : class → option (gmap string value) → result (option object))
    cls (data : option (gmap string value)) :
  cls ≠ PaidMedia →
  PaidMedia_de_json f cls data = PaidMedia_de_json g cls data.
Proof.
  intros Hcls. unfold PaidMedia_de_json.
  destruct (_parse_data data); [| done].
  by rewrite !bool_decide_eq_false_2, andb_false_r by done.
Qed.

Lemma PaidMedia_de_json_not_base
    (f : class → option (gmap string value) → result (option object))
    cls data :
  cls ≠ PaidMedia →
  PaidMedia_de_json f cls (Some data) = TelegramObject_de_json cls (Some data).
Proof.
  intros Hcls. unfold PaidMedia_de_json, _parse_data.
  by rewrite !bool_decide_eq_false_2, andb_false_r by done.
Qed.

(** Two levels of calls are enough: more depth changes nothing. *)
Lemma de_json_depth_variant (n m : nat) cls (data : option (gmap string value)) :
  cls ≠ PaidMedia →
  de_json_depth (S n) cls data = de_json_depth (S m) cls data.
Proof.
  intros Hcls. cbn [paidmedia.de_json_depth].
  destruct cls; [done | ..].
  - by apply PaidMedia_de_json_variant.
  - unfold PaidMediaPhoto_de_json. destruct (_parse_data data); [| done].
    destruct (is_empty _); [done |].
    destruct (PhotoSize_de_list _ _); [| done..].
    rewrite !bind_Ok. by apply PaidMedia_de_json_variant.
  - unfold PaidMediaVideo_de_json. destruct (_parse_data data); [| done].
    destruct (is_empty _); [done |].
    destruct (Video_de_json_value _ _); [| done..].
    rewrite !bind_Ok. by apply PaidMedia_de_json_variant.
Qed.

Lemma de_json_depth_base (n : nat) (data : option (gmap string value)) :
  de_json_depth (S n) PaidMedia data
  = PaidMedia_de_json (de_json_depth n) PaidMedia data.
Proof. reflexivity. Qed.

Lemma de_json_depth_enough (n : nat) cls (data : option (gmap string value)) :
  de_json_depth (2 + n) cls data = de_json cls data.
Proof.
  change (2 + n)%nat with (S (S n)).
  destruct (decide (cls = PaidMedia)) as [->|Hcls];
    [| by apply de_json_depth_variant].
  unfold paidmedia.de_json. rewrite !de_json_depth_base.
  unfold PaidMedia_de_json. destruct (_parse_data data) as [d|]; [| done].
  destruct (is_empty d && _); [done |]. rewrite bool_decide_eq_true_2 by done.
  destruct (_class_mapping (py_get d "type")) as [[c|]| |] eqn:Hc; [| done..].
  rewrite !bind_Ok. apply de_json_depth_variant.
  by eapply class_mapping_variant.
Qed.

(** *** The constructors and the base decoder *)

Lemma parse_sequence_arg_Some {A : Type} (l : list A) :
  parse_sequence_arg (Some l) = l.
Proof. by destruct l. Qed.

Lemma TelegramObject_de_json_class cls (data : option (gmap string value)) o :
  TelegramObject_de_json cls data = Ok (Some o) →
  class_of o = cls ∧
  ∀ m, variant_type cls = Some m → type o = VEnum m.
Proof.
  unfold TelegramObject_de_json. destruct data as [data|]; [| done].
  destruct (bool_decide _); [done |].
  destruct (call_init _ _ _) as [self| |] eqn:Hinit; [| done..].
  rewrite bind_Ok. intros [= <-]. unfold call_init in Hinit.
  destruct cls; repeat case_match; simplify_eq; cbn; split; try done;
    by intros m [= <-].
Qed.




(** C3, as stated, fails: [PaidMediaPreview.de_json] on the empty mapping
    returns a preview, not null. *)
Lemma de_json_preview_empty_not_null :
  sample.de_json PaidMediaPreview (Some ∅)
  = Ok (Some (PaidMediaPreview__init__ VNone VNone VNone ∅)) ∧
  sample.de_json PaidMediaPreview (Some ∅) ≠ Ok None.
Proof. split; [by vm_compute | by vm_compute]. Qed.

(** C3, amended: on null [de_json] returns null for the base class and for
    every variant; on the empty mapping it returns null for [PaidMedia],
    [PaidMediaPhoto] and [PaidMediaVideo], and for [PaidMediaPreview] a
    preview without width, height and duration. *)
Theorem de_json_null_or_empty cls (data : option (gmap string value)) :
  data = None ∨ data = Some ∅ →
  de_json cls data
  = match cls, data with
    | PaidMediaPreview, Some _ =>
        Ok (Some (PaidMediaPreview__init__ VNone VNone VNone ∅))
    | _, _ => Ok None
    end.
Proof.
  intros [-> | ->]; [by destruct cls |].
  unfold paidmedia.de_json. cbn [paidmedia.de_json_depth].
  destruct cls.
  - unfold PaidMedia_de_json, _parse_data. by rewrite is_empty_empty.
  - rewrite PaidMedia_de_json_not_base by done.
    rewrite TelegramObject_de_json_call by by apply collides_None.
    unfold call_init, py_get.
    by rewrite !map_filter_empty, !lookup_empty.
  - unfold PaidMediaPhoto_de_json, _parse_data. by rewrite is_empty_empty.
  - unfold PaidMediaVideo_de_json, _parse_data. by rewrite is_empty_empty.
Qed.

(** C4, as stated, fails: a mapping whose [type] is not recognized and
    which has an entry named [api_kwargs] makes [PaidMedia.de_json] raise a
    [TypeError]. *)
Lemma de_json_unknown_type_collision :
  sample.unknown_data !! "type"
  = Some (VJson (JStr "sticker_unknown_future_type")) ∧
  sample.de_json PaidMedia
    (Some (<["api_kwargs" := VJson (JObj [])]> sample.unknown_data))
  = Raise TypeError.
Proof. split; by vm_compute. Qed.

(** C4, amended: a mapping whose [type] is a string other than the three
    known ones, and which has no entry named [self] or [api_kwargs], is
    decoded by [PaidMedia.de_json] without an exception, to an instance of
    the base class whose [type] is that string; the other entries of the
    mapping are its [api_kwargs]. *)
Theorem de_json_unknown_type data (s : string) :
  data !! "type" = Some (VJson (JStr s)) →
  s ≠ "preview" → s ≠ "photo" → s ≠ "video" →
  data !! "self" = None → data !! "api_kwargs" = None →
  ∃ o,
    de_json PaidMedia (Some data) = Ok (Some o) ∧
    class_of o = PaidMedia ∧
    type o = VJson (JStr s) ∧
    slots_of o = NoSlots ∧
    api_kwargs o = delete "type" data.
Proof.
  intros Htype H1 H2 H3 Hself Hkw.
  unfold paidmedia.de_json. rewrite de_json_depth_base.
  unfold PaidMedia_de_json, _parse_data.
  rewrite (is_empty_lookup _ _ _ Htype), (py_get_lookup _ _ _ Htype).
  rewrite bool_decide_eq_true_2 by done. cbn [andb].
  rewrite class_mapping_unknown, bind_Ok by done.
  rewrite TelegramObject_de_json_call by by apply collides_None.
  unfold init_params, call_init.
  rewrite kwargs_lookup, Htype by (rewrite !elem_of_cons; tauto).
  rewrite bind_Ok, api_kwargs_delete by done.
  eexists. split; [done |]. cbn.
  unfold get_member, PaidMediaType_call.
  by rewrite !(proj2 (String.eqb_neq _ _)) by done.
Qed.


(** C9: each constructor of a concrete variant sets [type] to the constant
    of its class, which compares equal to the string of the discriminator;
    and whatever the mapping holds - a [type] entry included - an instance
    of a concrete variant that [de_json] returns has the constant of its
    class as [type]. *)
Theorem variant_type_fixed :
  (∀ width height duration (kw : gmap string value),
     type (PaidMediaPreview__init__ width height duration kw) = VEnum PREVIEW) ∧
  (∀ (ps : list PhotoSize) (kw : gmap string value),
     type (PaidMediaPhoto__init__ ps kw) = VEnum PHOTO) ∧
  (∀ (v : value) (kw : gmap string value),
     type (PaidMediaVideo__init__ v kw) = VEnum VIDEO) ∧
  (∀ m : PaidMediaType,
     value_eq PhotoSize_eq Video_eq (VEnum m)
       (VJson (JStr (PaidMediaType_value m))) = true) ∧
  (∀ cls (data : option (gmap string value)) o m,
     de_json cls data = Ok (Some o) →
     variant_type (class_of o) = Some m →
     type o = VEnum m).
Proof.
  split; [done |]. split; [done |]. split; [done |].
  split; [by intros [] |].
  intros cls data o m Hde Hm.
  assert (∀ c (d : option (gmap string value)),
            c ≠ PaidMedia → de_json_depth 1 c d = Ok (Some o) →
            type o = VEnum m) as Hvariant.
  { intros c d Hc. cbn [paidmedia.de_json_depth].
    assert (∀ d', PaidMedia_de_json (de_json_depth 0) c d' = Ok (Some o) →
                  type o = VEnum m) as Hsuper.
    { intros [d'|]; [| done]. rewrite PaidMedia_de_json_not_base by done.
      intros [<- Hty]%TelegramObject_de_json_class. by apply Hty. }
    destruct c; [done | apply Hsuper | |].
    - unfold PaidMediaPhoto_de_json. destruct (_parse_data d); [| done].
      destruct (is_empty _); [done |].
      destruct (PhotoSize_de_list _ _); [| done..]. rewrite bind_Ok.
      apply Hsuper.
    - unfold PaidMediaVideo_de_json. destruct (_parse_data d); [| done].
      destruct (is_empty _); [done |].
      destruct (Video_de_json_value _ _); [| done..]. rewrite bind_Ok.
      apply Hsuper. }
  destruct (decide (cls = PaidMedia)) as [->|Hcls].
  - revert Hde. unfold paidmedia.de_json. rewrite de_json_depth_base.
    unfold PaidMedia_de_json. destruct (_parse_data data) as [d|]; [| done].
    destruct (is_empty d && _); [done |].
    rewrite bool_decide_eq_true_2 by done.
    destruct (_class_mapping (py_get d "type")) as [[c|]| |] eqn:Hc;
      [| | done..]; rewrite bind_Ok.
    + apply Hvariant. by eapply class_mapping_variant.
    + intros [Hcl _]%TelegramObject_de_json_class. by rewrite Hcl in Hm.
  - apply (Hvariant cls data Hcls).
    by rewrite <-Hde, <-(de_json_depth_enough 0), (de_json_depth_variant 0 1).
Qed.

End Decoder.

(** *** The theorems at concrete mappings *)

Lemma de_json_null_or_empty_witness :
  sample.de_json PaidMediaVideo (Some ∅) = Ok None.
Proof.
  apply (de_json_null_or_empty sample.file_de_json sample.file_de_json
           PaidMediaVideo (Some ∅)).
  right. reflexivity.
Defined.

Lemma de_json_unknown_type_witness :
  ∃ o,
    sample.de_json PaidMedia (Some sample.unknown_data) = Ok (Some o) ∧
    class_of o = PaidMedia ∧
    type o = VJson (JStr "sticker_unknown_future_type") ∧
    slots_of o = NoSlots ∧
    api_kwargs o = delete "type" sample.unknown_data.
Proof.
  apply (de_json_unknown_type sample.file_de_json sample.file_de_json
           sample.unknown_data "sticker_unknown_future_type").
  - vm_compute. reflexivity.
  - discriminate.
  - discriminate.
  - discriminate.
  - vm_compute. reflexivity.
  - vm_compute. reflexivity.
Defined.


Lemma variant_type_fixed_witness :
  type (PaidMediaPreview__init__ (VJson (JNum 640)) VNone VNone
          {[ "type" := VJson (JStr "photo") ]} : sample.object)
  = VEnum PREVIEW.
Proof.
  apply (proj2 (proj2 (proj2 (proj2
           (variant_type_fixed sample.file_de_json sample.file_de_json
              String.eqb String.eqb))))
           PaidMediaPreview
           (Some {[ "type" := VJson (JStr "photo");
                    "width" := VJson (JNum 640) ]})).
  - vm_compute. reflexivity.
  - reflexivity.
Defined.

End paidmediaFacts.

(** ** The offset translator: errors and edges *)

Module MessageEntityEdges.
Import MessageEntity MessageEntityMeasures MessageEntityFacts.

(** *** What the encoder and the loops can answer *)

Lemma encode_utf_16_le_outcome (s : list Z) :
  match encode_utf_16_le s with
  | Ok _ => encodable s
  | Raise e => e = UnicodeEncodeError ∧ ¬ encodable s
  | Undefined => False
  end.
Proof.
  induction s as [|c s IH]; cbn [encode_utf_16_le]; [by constructor |].
  unfold encode_code_point.
  destruct (is_surrogate c) eqn:Hc.
  { cbn. split; [done |]. intros [Hc' _]%Forall_cons. congruence. }
  assert (∀ b : list Z,
            match Ok b ≫= (fun b => encode_utf_16_le s ≫= fun bs => Ok (b ++ bs)) with
            | Ok _ => encodable (c :: s)
            | Raise e => e = UnicodeEncodeError ∧ ¬ encodable (c :: s)
            | Undefined => False
            end) as Hrest.
  { intros b. rewrite bind_Ok.
    destruct (encode_utf_16_le s) as [bs|e|]; cbn; [| | done].
    - by constructor.
    - destruct IH as [-> IH]. split; [done |].
      by intros [_ ?]%Forall_cons. }
  destruct (c <? 0x10000); apply Hrest.
Qed.

Lemma utf16_len_outcome (s : list Z) :
  match utf16_len s with
  | Ok _ => encodable s
  | Raise e => e = UnicodeEncodeError ∧ ¬ encodable s
  | Undefined => False
  end.
Proof.
  unfold utf16_len. pose proof (encode_utf_16_le_outcome s) as H.
  by destruct (encode_utf_16_le s).
Qed.

Lemma encodable_slice (text : list Z) (a b : Z) :
  encodable text → encodable (py_slice text a b).
Proof. intros H. unfold py_slice. by apply Forall_take, Forall_drop. Qed.

Lemma translate_position_outcome (text positions : list Z) (i : nat)
    (p acc : Z) (tr : gmap Z Z) :
  match translate_position text positions (acc, tr) i p with
  | Ok (acc', tr') => tr' = <[p := acc']> tr
  | Raise e => e = UnicodeEncodeError ∧ ¬ encodable text
  | Undefined => False
  end.
Proof.
  unfold translate_position.
  set (s := py_slice text _ p).
  pose proof (utf16_len_outcome s) as Hlen.
  destruct (utf16_len s) as [units|e|]; [by rewrite bind_Ok | | done].
  cbn. destruct Hlen as [-> Hlen]. split; [done |].
  intros ?. by apply Hlen, encodable_slice.
Qed.

(** The first loop on any text: it ends with every position as a key of the
    dict, or it raises because a slice cannot be encoded. *)
Lemma translate_positions_outcome (text positions : list Z) (i : nat)
    (l : list Z) (acc : Z) (tr : gmap Z Z) :
  match for_enumerate (translate_position text positions) i l (acc, tr) with
  | Ok (_, tr') => ∀ p, p ∈ l ∨ is_Some (tr !! p) → is_Some (tr' !! p)
  | Raise e => e = UnicodeEncodeError ∧ ¬ encodable text
  | Undefined => False
  end.
Proof.
  revert i acc tr. induction l as [|p l IH]; intros i acc tr; cbn [for_enumerate].
  { intros q [Hq%elem_of_nil | Hq]; done. }
  pose proof (translate_position_outcome text positions i p acc tr) as Hstep.
  destruct (translate_position _ _ _ _ _) as [[acc1 tr1]|e|]; [| done..].
  subst tr1. rewrite bind_Ok.
  specialize (IH (S i) acc1 (<[p := acc1]> tr)).
  destruct (for_enumerate _ _ _ _) as [[acc' tr']|e|]; [| done..].
  intros q Hq. apply IH.
  destruct (decide (q = p)) as [->|Hne].
  - right. by rewrite lookup_insert_eq.
  - rewrite lookup_insert_ne by done.
    destruct Hq as [[?|?]%elem_of_cons | ?]; [done | by left | by right].
Qed.

Lemma position_translation_outcome (text : list Z) (xs : list t) :
  match position_translation text xs with
  | Ok tr => ∀ x, x ∈ xs → is_Some (tr !! offset x) ∧ is_Some (tr !! stop x)
  | Raise e => e = UnicodeEncodeError ∧ ¬ encodable text
  | Undefined => False
  end.
Proof.
  unfold position_translation.
  pose proof (translate_positions_outcome text (sorted_positions xs) 0
                (sorted_positions xs) 0 ∅) as H.
  destruct (for_enumerate _ _ _ _) as [[acc tr]|e|]; [| done..].
  rewrite bind_Ok. cbn. intros x Hx.
  split; apply H; left; apply elem_of_sorted_positions; eauto.
Qed.

Lemma deref_None (h : list t) (l : nat) : h !! l = None → deref h l = Undefined.
Proof. unfold deref. by intros ->. Qed.

(** Reading the entities either gives them all or meets a reference to
    nothing; it raises nothing. *)
Lemma collect_outcome (h : list t) (entities : list nat) (acc : list t) :
  match for_each (fun acc l => x ← deref h l; Ok (acc ++ [x])) entities acc with
  | Ok xs => ∃ es, xs = acc ++ es ∧ stored h entities es
  | Raise _ => False
  | Undefined => True
  end.
Proof.
  revert acc. induction entities as [|l entities IH]; intros acc; cbn [for_each].
  { exists []. split; [by rewrite app_nil_r | constructor]. }
  destruct (h !! l) as [e|] eqn:Hl; [| by rewrite (deref_None h l Hl)].
  rewrite (deref_Some h l e Hl), !bind_Ok. specialize (IH (acc ++ [e])).
  destruct (for_each _ _ _) as [xs| |]; [| done..].
  destruct IH as (es & -> & Hes). exists (e :: es).
  split; [by rewrite <-(assoc_L (++)) | by constructor].
Qed.

(** The second loop with any dict that holds both boundaries of every
    entity. *)
Lemma translate_entity_step_any (tr : gmap Z Z) (h : list t) (out : list nat)
    (l : nat) (e : t) :
  h !! l = Some e →
  is_Some (tr !! offset e) → is_Some (tr !! stop e) →
  translate_entity tr (h, out) l
  = Ok (h ++ [translated_by tr e], out ++ [List.length h]).
Proof.
  intros Hl [v1 Hstart] [v2 Hstop]. unfold translate_entity, copy_copy, getitem.
  unfold translated_by. unfold stop in *.
  rewrite !(deref_Some h l e Hl), bind_Ok, Hstart, bind_Ok, Hstop, !bind_Ok.
  unfold set_offset.
  rewrite (deref_Some _ _ e) by (by apply list_lookup_middle).
  rewrite bind_Ok, insert_app_r_alt, Nat.sub_diag by done.
  cbn [insert list_insert]. rewrite bind_Ok. unfold set_length.
  rewrite (deref_Some _ _ (with_offset e v1)) by (by apply list_lookup_middle).
  by rewrite bind_Ok, insert_app_r_alt, Nat.sub_diag by done.
Qed.

Lemma translate_entity_loop_any (tr : gmap Z Z) (h : list t)
    (entities : list nat) (es new : list t) (out : list nat) :
  stored h entities es →
  Forall (fun e => is_Some (tr !! offset e) ∧ is_Some (tr !! stop e)) es →
  for_each (translate_entity tr) entities (h ++ new, out)
  = Ok (h ++ new ++ (translated_by tr <$> es),
        out ++ seq (List.length (h ++ new)) (List.length es)).
Proof.
  intros Hes. revert new out.
  induction Hes as [|l e entities es Hl _ IH]; intros new out Htr; cbn [for_each].
  { by rewrite !app_nil_r. }
  apply Forall_cons in Htr as [[Hstart Hstop] Htr].
  rewrite (translate_entity_step_any tr (h ++ new) out l e), bind_Ok;
    [| by apply lookup_app_l_Some | done | done].
  rewrite <-(assoc_L (++) h), IH by done.
  rewrite <-!(assoc_L (++)), !length_app. cbn [List.length fmap list_fmap seq app].
  by replace (List.length h + (List.length new + 1))%nat
    with (S (List.length h + List.length new)) by lia.
Qed.

(** The call in three cases: it returns the store extended by the copies,
    it raises on a text that cannot be encoded, or a reference is dangling. *)
Lemma adjust_outcome (h : list t) (text : list Z) (entities : list nat) :
  match adjust_message_entities_to_utf_16 h text entities with
  | Ok (h', out) =>
      ∃ es tr, stored h entities es ∧ position_translation text es = Ok tr ∧
               h' = h ++ (translated_by tr <$> es) ∧
               out = seq (List.length h) (List.length es)
  | Raise e => e = UnicodeEncodeError ∧ ¬ encodable text
  | Undefined => ¬ ∃ es, stored h entities es
  end.
Proof.
  unfold adjust_message_entities_to_utf_16.
  pose proof (collect_outcome h entities []) as Hxs.
  destruct (for_each _ entities []) as [xs| |] eqn:Hcollect; [| done |].
  - destruct Hxs as (es & -> & Hes). cbn [app]. rewrite bind_Ok.
    pose proof (position_translation_outcome text es) as Htr.
    destruct (position_translation text es) as [tr|e|] eqn:Hpt; [| done..].
    rewrite bind_Ok.
    pose proof (translate_entity_loop_any tr h entities es [] []) as Hloop.
    rewrite !app_nil_r in Hloop. cbn [app] in Hloop. rewrite Hloop.
    + by exists es, tr.
    + done.
    + apply Forall_forall. intros e He. by apply Htr.
  - intros [es Hes]. by rewrite (collect_entities h entities es []) in Hcollect.
Qed.

Lemma stored_unique (h : list t) (entities : list nat) (es es' : list t) :
  stored h entities es → stored h entities es' → es = es'.
Proof.
  intros Hes. revert es'.
  induction Hes as [|l e entities es Hl _ IH]; intros es' Hes';
    inversion Hes' as [|? e' ? es'' Hl' Hrest]; subst; [done |].
  rewrite Hl in Hl'. injection Hl' as <-. f_equal. by apply IH.
Qed.

(** X1: whatever the offsets and lengths are, the only exception the call
    raises is the one of the encoder, and it raises it only on a text with a
    surrogate code point; a lookup in [position_translation] never misses. *)
Theorem adjust_raises_only_encode_error (h : list t) (text : list Z)
    (entities : list nat) (e : exn) :
  adjust_message_entities_to_utf_16 h text entities = Raise e →
  e = UnicodeEncodeError ∧ Exists (fun c => is_surrogate c = true) text.
Proof.
  intros Hcall. pose proof (adjust_outcome h text entities) as H.
  rewrite Hcall in H. destruct H as [-> Htext]. split; [done |].
  apply not_Forall_Exists in Htext; [| intros c; apply _].
  eapply Exists_impl; [exact Htext |]. cbn. intros c Hc.
  by destruct (is_surrogate c).
Qed.

Lemma adjust_raises_only_encode_error_witness :
  UnicodeEncodeError = UnicodeEncodeError ∧
  Exists (fun c => is_surrogate c = true) [0xD83D].
Proof.
  apply (adjust_raises_only_encode_error [entity BOLD 0 1] [0xD83D] [0%nat]).
  vm_compute. reflexivity.
Defined.

(** X2: on a text without surrogate code points the call returns for any
    integer offsets and lengths, negative ones and ones beyond the text
    included: one new object per input entity, in order - none of them an
    object of the store before the call, no two of them the same - with the
    type of the input and with the entries of [position_translation] for its
    two boundaries as offset and as end; and the objects of the store before
    the call, the inputs among them, are as they were. *)
Theorem adjust_returns_on_encodable (h : list t) (text : list Z)
    (entities : list nat) (es : list t) :
  stored h entities es →
  Forall (fun c => is_surrogate c = false) text →
  ∃ h' out tr,
    adjust_message_entities_to_utf_16 h text entities = Ok (h', out) ∧
    List.length out = List.length entities ∧
    NoDup out ∧
    stored h' entities es ∧
    (∀ l e, h !! l = Some e → h' !! l = Some e) ∧
    position_translation text es = Ok tr ∧
    Forall2 (fun e l' => ∃ e' start end',
      (List.length h <= l')%nat ∧ h' !! l' = Some e' ∧
      tr !! offset e = Some start ∧ tr !! stop e = Some end' ∧
      type e' = type e ∧ offset e' = start ∧ length e' = end' - start) es out.
Proof.
  intros Hes Htext. pose proof (adjust_outcome h text entities) as H.
  destruct (adjust_message_entities_to_utf_16 h text entities)
    as [[h' out]|e|]; [| by destruct H | destruct H; eauto].
  destruct H as (es' & tr & Hes' & Htr & -> & ->).
  rewrite <-(stored_unique _ _ _ _ Hes Hes') in *.
  pose proof (position_translation_outcome text es) as Hkeys.
  rewrite Htr in Hkeys.
  eexists _, _, tr. split; [done |].
  split; [by rewrite length_seq, (Forall2_length _ _ _ Hes) |].
  split; [apply NoDup_seq |].
  split; [| split; [| split; [done |]]].
  - eapply Forall2_impl; [exact Hes |]. cbn. intros l e Hl.
    by apply lookup_app_l_Some.
  - intros l e Hl. by apply lookup_app_l_Some.
  - apply Forall2_same_length_lookup_2; [by rewrite length_seq |].
    intros i e l' He [-> Hi]%lookup_seq.
    destruct (Hkeys e) as [[start Hstart] [end' Hend]];
      [by eapply list_elem_of_lookup_2 |].
    exists (translated_by tr e), start, end'.
    split; [lia |].
    split; [by rewrite lookup_app_r, Nat.add_comm, Nat.add_sub,
                 list_lookup_fmap, He by lia |].
    unfold translated_by. rewrite Hstart, Hend. by cbn.
Qed.

Lemma adjust_returns_on_encodable_witness :
  ∃ h' out tr,
    adjust_message_entities_to_utf_16 [entity BOLD (-1) 7] [97; 0x1D122; 99]
      [0%nat] = Ok (h', out) ∧
    List.length out = List.length [0%nat] ∧
    NoDup out ∧
    stored h' [0%nat] [entity BOLD (-1) 7] ∧
    (∀ l e, [entity BOLD (-1) 7] !! l = Some e → h' !! l = Some e) ∧
    position_translation [97; 0x1D122; 99] [entity BOLD (-1) 7] = Ok tr ∧
    Forall2 (fun e l' => ∃ e' start end',
      (List.length [entity BOLD (-1) 7] <= l')%nat ∧ h' !! l' = Some e' ∧
      tr !! offset e = Some start ∧ tr !! stop e = Some end' ∧
      type e' = type e ∧ offset e' = start ∧ length e' = end' - start)
      [entity BOLD (-1) 7] out.
Proof.
  apply (adjust_returns_on_encodable [entity BOLD (-1) 7] [97; 0x1D122; 99]
           [0%nat] [entity BOLD (-1) 7]).
  - repeat constructor.
  - repeat (constructor; [reflexivity |]). constructor.
Defined.

(** *** A surrogate before a boundary *)

Lemma last_position_eq (pre rest : list Z) (p : Z) :
  (if decide (0 < List.length pre)%nat
   then (pre ++ p :: rest) !!! (List.length pre - 1)%nat else 0)
  = default 0 (last pre).
Proof.
  destruct pre as [|x pre _] using rev_ind; [done |].
  rewrite last_snoc, length_app. cbn [List.length].
  rewrite decide_True by lia.
  rewrite <-(assoc_L (++)). apply list_lookup_total_correct.
  replace (List.length pre + 1 - 1)%nat with (List.length pre + 0)%nat by lia.
  by rewrite lookup_app_r, Nat.add_0_r, Nat.sub_diag by lia.
Qed.

Lemma translate_position_unfold (text pre rest : list Z) (p acc : Z)
    (tr : gmap Z Z) :
  translate_position text (pre ++ p :: rest) (acc, tr) (List.length pre) p
  = units ← utf16_len (py_slice text (default 0 (last pre)) p);
    Ok (acc + units, <[p := acc + units]> tr).
Proof. unfold translate_position. by rewrite last_position_eq. Qed.

Lemma slice_index_range (n i : Z) : 0 <= n → 0 <= slice_index n i <= n.
Proof. intros Hn. unfold slice_index. destruct (Z.ltb_spec i 0); lia. Qed.

Lemma slice_index_idem (n i : Z) :
  0 <= n → slice_index n (slice_index n i) = slice_index n i.
Proof.
  intros Hn. pose proof (slice_index_range n i Hn). unfold slice_index at 1.
  destruct (Z.ltb_spec (slice_index n i) 0); lia.
Qed.

(** A slice is the slice between its two indices as Python clamps them. *)
Lemma py_slice_clamped {A : Type} (l : list A) (lo hi : Z) :
  py_slice l lo hi
  = py_slice l (slice_index (Z.of_nat (List.length l)) lo)
      (slice_index (Z.of_nat (List.length l)) hi).
Proof. unfold py_slice. cbn zeta. by rewrite !slice_index_idem by lia. Qed.

Section Surrogate.

Variables (text : list Z) (k : nat) (c : Z).
Hypothesis at_k : text !! k = Some c.
Hypothesis surrogate_c : is_surrogate c = true.
Hypothesis first : encodable (take k text).

Local Abbreviation clamped := (slice_index (Z.of_nat (List.length text))).

Lemma slice_before_surrogate (q p : Z) :
  0 <= q <= p → p <= Z.of_nat k → ∃ n, utf16_len (py_slice text q p) = Ok n.
Proof.
  intros Hq Hp. eexists. apply utf16_len_units.
  rewrite py_slice_nonneg by done. apply Forall_drop.
  replace (take (Z.to_nat p) text) with (take (Z.to_nat p) (take k text)).
  - by apply Forall_take.
  - rewrite take_take. f_equal. lia.
Qed.

Lemma slice_over_surrogate (q p : Z) :
  0 <= q <= Z.of_nat k → Z.of_nat k < p →
  utf16_len (py_slice text q p) = Raise UnicodeEncodeError.
Proof.
  intros Hq Hp. rewrite py_slice_nonneg by lia.
  pose proof (lookup_lt_Some _ _ _ at_k) as Hlen.
  replace (Z.to_nat p) with (S k + (Z.to_nat p - S k))%nat by lia.
  rewrite <-take_take_drop, (take_S_r _ _ _ at_k), <-(assoc_L (++)).
  rewrite drop_app_le by (rewrite length_take; lia).
  cbn [app]. apply utf16_len_surrogate; [done |]. by apply Forall_drop.
Qed.

(** The same for any two integers, negative ones included: what counts is
    where the clamped indices lie. *)
Lemma slice_below_surrogate (q p : Z) :
  clamped p <= Z.of_nat k → ∃ n, utf16_len (py_slice text q p) = Ok n.
Proof.
  intros Hp. rewrite py_slice_clamped.
  pose proof (slice_index_range (Z.of_nat (List.length text)) q) as Hq.
  destruct (decide (clamped q <= clamped p)) as [Hle|Hgt].
  - apply slice_before_surrogate; lia.
  - exists 0. unfold py_slice. cbn zeta. rewrite !slice_index_idem by lia.
    by replace (Z.to_nat (clamped p - clamped q)) with 0%nat by lia.
Qed.

Lemma slice_across_surrogate (q p : Z) :
  clamped q <= Z.of_nat k → Z.of_nat k < clamped p →
  utf16_len (py_slice text q p) = Raise UnicodeEncodeError.
Proof.
  intros Hq Hp. rewrite py_slice_clamped.
  pose proof (slice_index_range (Z.of_nat (List.length text)) q).
  apply slice_over_surrogate; lia.
Qed.

(** Once a boundary lies beyond the surrogate, the first loop raises:
    whatever the positions before it are, it is the first slice that holds
    the surrogate, if none before it does. *)
Lemma translate_positions_raise (pre rest : list Z) (acc : Z) (tr : gmap Z Z) :
  clamped (default 0 (last pre)) <= Z.of_nat k →
  Exists (fun p => Z.of_nat k < clamped p) rest →
  for_enumerate (translate_position text (pre ++ rest)) (List.length pre) rest
    (acc, tr)
  = Raise UnicodeEncodeError.
Proof.
  revert pre acc tr.
  induction rest as [|p rest IH]; intros pre acc tr Hq Hover.
  { by apply Exists_nil in Hover. }
  cbn [for_enumerate]. rewrite translate_position_unfold.
  destruct (decide (Z.of_nat k < clamped p)) as [Hkp|Hkp].
  { by rewrite slice_across_surrogate. }
  destruct (slice_below_surrogate (default 0 (last pre)) p) as [n ->]; [lia |].
  rewrite !bind_Ok.
  apply Exists_inv in Hover as [? | Hover]; [done |].
  specialize (IH (pre ++ [p]) (acc + n) (<[p := acc + n]> tr)).
  rewrite <-(assoc_L (++)), length_app in IH. cbn [List.length app] in IH.
  rewrite Nat.add_1_r in IH. apply IH; [| done].
  rewrite last_snoc. cbn. lia.
Qed.

End Surrogate.

(** X3: if the text has a surrogate code point that lies before a boundary
    of some span - its offset or its end - the call raises
    [UnicodeEncodeError], whatever the other boundaries are, negative ones
    included; it returns nothing, also not the spans that end before that
    code point. *)
Theorem adjust_raises_on_surrogate (h : list t) (text : list Z)
    (entities : list nat) (es : list t) (k : nat) (c : Z) :
  stored h entities es →
  text !! k = Some c →
  is_surrogate c = true →
  Exists (fun e => Z.of_nat k < offset e ∨ Z.of_nat k < stop e) es →
  adjust_message_entities_to_utf_16 h text entities = Raise UnicodeEncodeError.
Proof.
  intros Hes Hk Hc Hover.
  destruct (list_find (fun c => is_surrogate c = true) text) as [[k0 c0]|]
    eqn:Hfind.
  2:{ destruct (list_find_elem_of (fun c => is_surrogate c = true) text c)
        as [? ?]; [by eapply list_elem_of_lookup_2 | done | congruence]. }
  apply list_find_Some in Hfind as (Hk0 & Hc0 & Hfirst).
  assert (k0 <= k)%nat as Hle.
  { destruct (decide (k0 <= k)%nat); [done |].
    destruct (decide (k = k0)) as [->|]; [lia |].
    assert (k < k0)%nat as Hlt by lia. by destruct (Hfirst k c Hk Hlt). }
  assert (encodable (take k0 text)) as Hbefore.
  { apply Forall_forall. intros x Hx. apply list_elem_of_lookup in Hx as [j Hj].
    apply lookup_take_Some in Hj as [Hj Hlt].
    specialize (Hfirst j x Hj Hlt). by destruct (is_surrogate x). }
  pose proof (lookup_lt_Some _ _ _ Hk0) as Hlen.
  assert (∀ p, Z.of_nat k < p →
            Z.of_nat k0 < slice_index (Z.of_nat (List.length text)) p) as Hbeyond.
  { intros p Hp. unfold slice_index. destruct (Z.ltb_spec p 0); lia. }
  unfold adjust_message_entities_to_utf_16.
  rewrite (collect_entities h entities es []), bind_Ok by done. cbn [app].
  unfold position_translation.
  rewrite (translate_positions_raise text k0 c0 Hk0 Hc0 Hbefore []
             (sorted_positions es) 0); [done | cbn; unfold slice_index; cbn; lia |].
  apply Exists_exists in Hover as (e & He & Hover).
  apply Exists_exists. destruct Hover as [Hover|Hover].
  - exists (offset e). split; [| by apply Hbeyond].
    apply elem_of_sorted_positions. eauto.
  - exists (stop e). split; [| by apply Hbeyond].
    apply elem_of_sorted_positions. eauto.
Qed.

Lemma adjust_raises_on_surrogate_witness :
  adjust_message_entities_to_utf_16 [entity BOLD (-3) 1; entity ITALIC 2 2]
    [97; 98; 0xDC00; 99] [0; 1]%nat = Raise UnicodeEncodeError.
Proof.
  apply (adjust_raises_on_surrogate [entity BOLD (-3) 1; entity ITALIC 2 2]
           [97; 98; 0xDC00; 99] [0; 1]%nat
           [entity BOLD (-3) 1; entity ITALIC 2 2] 2 0xDC00).
  - repeat constructor.
  - reflexivity.
  - reflexivity.
  - right. left. right. unfold stop. cbn. lia.
Defined.

(** *** The text after the last boundary *)

Lemma py_slice_take {A : Type} (l : list A) (m : nat) (a b : Z) :
  0 <= a <= Z.of_nat m → 0 <= b <= Z.of_nat m →
  py_slice (take m l) a b = py_slice l a b.
Proof.
  intros Ha Hb. unfold py_slice, slice_index.
  destruct (Z.ltb_spec a 0), (Z.ltb_spec b 0); try lia.
  rewrite length_take. apply list_eq. intros i.
  rewrite !lookup_take, !lookup_drop, lookup_take.
  repeat case_decide; try done; try lia.
  f_equal. lia.
Qed.

Lemma for_enumerate_ext {A St : Type} (f g : St → nat → A → result St)
    (i : nat) (l : list A) (st : St) :
  (∀ st j x, l !! j = Some x → f st (i + j)%nat x = g st (i + j)%nat x) →
  for_enumerate f i l st = for_enumerate g i l st.
Proof.
  revert i st. induction l as [|x l IH]; intros i st Hfg; [done |].
  cbn [for_enumerate].
  pose proof (Hfg st 0%nat x eq_refl) as Hhead.
  rewrite Nat.add_0_r in Hhead. rewrite Hhead.
  destruct (g st i x) as [st'| |]; [| done..]. rewrite !bind_Ok.
  apply IH. intros st'' j y Hj.
  replace (S i + j)%nat with (i + S j)%nat by lia. by apply Hfg.
Qed.

Lemma position_translation_take (text : list Z) (es : list t) (m : nat) :
  Forall (fun e => 0 <= offset e <= Z.of_nat m ∧ 0 <= stop e <= Z.of_nat m) es →
  position_translation (take m text) es = position_translation text es.
Proof.
  intros Hes. unfold position_translation.
  assert (Forall (fun p => 0 <= p <= Z.of_nat m) (sorted_positions es)) as Hpos.
  { apply Forall_forall. intros p (x & Hx & Hp)%elem_of_sorted_positions.
    rewrite Forall_forall in Hes. destruct (Hes x Hx). unfold stop in *.
    destruct Hp; subst p; lia. }
  rewrite (for_enumerate_ext _ (translate_position text (sorted_positions es)));
    [done |].
  intros [acc tr] j p Hj. cbn [Nat.add]. unfold translate_position.
  pose proof (Forall_lookup_1 _ _ _ _ Hpos Hj) as Hp.
  rewrite py_slice_take; [done | | done].
  case_decide; [| lia].
  destruct (sorted_positions es !! (j - 1)%nat) as [q|] eqn:Hq.
  - rewrite (list_lookup_total_correct _ _ _ Hq).
    by eapply (Forall_lookup_1 _ _ _ _ Hpos).
  - apply lookup_ge_None in Hq. apply lookup_lt_Some in Hj. lia.
Qed.

(** X4: the call reads the text only up to the largest boundary: on two
    texts that agree on their first [m] code points it gives the same
    result for spans that lie within these, an exception included. *)
Theorem adjust_ignores_text_after_spans (h : list t) (text1 text2 : list Z)
    (entities : list nat) (es : list t) (m : nat) :
  stored h entities es →
  Forall (fun e => 0 <= offset e <= Z.of_nat m ∧ 0 <= stop e <= Z.of_nat m) es →
  take m text1 = take m text2 →
  adjust_message_entities_to_utf_16 h text1 entities
  = adjust_message_entities_to_utf_16 h text2 entities.
Proof.
  intros Hes Hin Htake. unfold adjust_message_entities_to_utf_16.
  rewrite (collect_entities h entities es []), !bind_Ok by done. cbn [app].
  by rewrite <-(position_translation_take text1 es m),
    <-(position_translation_take text2 es m), Htake by done.
Qed.

Lemma adjust_ignores_text_after_spans_witness :
  adjust_message_entities_to_utf_16 [entity BOLD 0 2] [0x1D122; 98; 0xD83D]
    [0%nat]
  = adjust_message_entities_to_utf_16 [entity BOLD 0 2] [0x1D122; 98; 33; 34]
      [0%nat].
Proof.
  apply (adjust_ignores_text_after_spans [entity BOLD 0 2]
           [0x1D122; 98; 0xD83D] [0x1D122; 98; 33; 34] [0%nat]
           [entity BOLD 0 2] 2).
  - repeat constructor.
  - repeat (constructor; [split; unfold stop; cbn; lia |]). constructor.
  - reflexivity.
Defined.

(** *** How much a span moves *)

Lemma astral_count_cons (c : Z) (s : list Z) :
  astral_count (c :: s)
  = (if decide (0x10000 <= c) then 1 else 0) + astral_count s.
Proof.
  unfold astral_count. rewrite filter_cons.
  case_decide; [rewrite length_cons |]; lia.
Qed.

Lemma utf16_units_astral (s : list Z) :
  utf16_units s = Z.of_nat (List.length s) + astral_count s.
Proof.
  induction s as [|c s IH]; [done |].
  rewrite utf16_units_cons, astral_count_cons, length_cons, IH.
  unfold code_units. destruct (Z.ltb_spec c 0x10000); case_decide; lia.
Qed.

Lemma astral_count_bounds (s : list Z) :
  0 <= astral_count s <= Z.of_nat (List.length s).
Proof.
  unfold astral_count.
  pose proof (length_filter (fun c => 0x10000 <= c) s). lia.
Qed.

(** X5: for valid spans over a text without surrogate code points, a
    translated offset is the offset plus the number of code points outside
    the Basic Multilingual Plane before it, a translated length the length
    plus the number of such code points within the span; neither grows
    beyond its double. *)
Theorem adjust_adds_astral_count (h : list t) (text : list Z)
    (entities : list nat) (es : list t) :
  stored h entities es →
  Forall (fun c => is_surrogate c = false) text →
  Forall (valid_span text) es →
  ∃ h' out,
    adjust_message_entities_to_utf_16 h text entities = Ok (h', out) ∧
    Forall2 (fun e l' => ∃ e',
      h' !! l' = Some e' ∧
      offset e' = offset e + astral_count (py_slice text 0 (offset e)) ∧
      length e' = length e + astral_count (py_slice text (offset e) (stop e)) ∧
      offset e' <= 2 * offset e ∧ length e' <= 2 * length e) es out.
Proof.
  intros Hes Htext Hvalid.
  destruct (adjust_result text Htext (valid_span text) h entities es)
    as (h' & out & Hcall & _ & _ & Hout);
    [done | by apply (valid_span_boundaries text) | done |].
  exists h', out. split; [done |].
  eapply Forall2_impl; [exact Hout |]. cbn beta.
  intros e l' ((Hoff & Hlen & Hstop) & _ & Hl'). eexists. split; [done |].
  cbn [translated with_length with_offset offset length]. unfold stop.
  assert (prefix_units text (offset e)
          = offset e + astral_count (py_slice text 0 (offset e))) as ->.
  { unfold prefix_units. rewrite py_slice_prefix, utf16_units_astral by done.
    rewrite length_take. lia. }
  assert (prefix_units text (offset e + length e)
          - (offset e + astral_count (py_slice text 0 (offset e)))
          = length e
            + astral_count (py_slice text (offset e) (offset e + length e)))
    as ->.
  { unfold prefix_units.
    rewrite (prefix_split text (offset e) (offset e + length e)) by lia.
    rewrite utf16_units_app, !utf16_units_astral, py_slice_prefix by done.
    rewrite length_slice_within, length_take by lia. lia. }
  pose proof (astral_count_bounds (py_slice text 0 (offset e))) as H1.
  pose proof (astral_count_bounds
                (py_slice text (offset e) (offset e + length e))) as H2.
  rewrite length_slice_within in H1, H2 by lia.
  repeat split; lia.
Qed.

Lemma adjust_adds_astral_count_witness :
  ∃ h' out,
    adjust_message_entities_to_utf_16 example_entities example_text
      [0; 1; 2]%nat = Ok (h', out) ∧
    Forall2 (fun e l' => ∃ e',
      h' !! l' = Some e' ∧
      offset e' = offset e + astral_count (py_slice example_text 0 (offset e)) ∧
      length e'
      = length e + astral_count (py_slice example_text (offset e) (stop e)) ∧
      offset e' <= 2 * offset e ∧ length e' <= 2 * length e)
      example_entities out.
Proof.
  apply (adjust_adds_astral_count example_entities example_text
           [0; 1; 2]%nat example_entities).
  - repeat constructor.
  - repeat (constructor; [reflexivity |]). constructor.
  - repeat (constructor; [repeat split; cbn; lia |]). constructor.
Defined.

(** *** How spans lie to each other *)

Lemma prefix_units_lt (text : list Z) (a b : Z) :
  0 <= a < b → b <= Z.of_nat (List.length text) →
  prefix_units text a < prefix_units text b.
Proof.
  intros Hab Hb. unfold prefix_units.
  rewrite (prefix_split text a b) by lia. rewrite utf16_units_app.
  pose proof (utf16_units_length (py_slice text a b)) as H.
  rewrite length_slice_within in H by lia. lia.
Qed.

Lemma prefix_units_le_iff (text : list Z) (a b : Z) :
  0 <= a <= Z.of_nat (List.length text) →
  0 <= b <= Z.of_nat (List.length text) →
  a <= b ↔ prefix_units text a <= prefix_units text b.
Proof.
  intros Ha Hb. split.
  - intros Hab. apply prefix_units_mono. lia.
  - intros Hle. destruct (decide (a <= b)); [done |].
    pose proof (prefix_units_lt text b a). lia.
Qed.

(** X6: for valid spans over a text without surrogate code points the
    translation keeps how the spans lie to each other: between any two
    spans, a start or end of the one is at or before a start or end of the
    other after the call exactly when it was before. *)
Theorem adjust_keeps_span_order (h : list t) (text : list Z)
    (entities : list nat) (es : list t) :
  stored h entities es →
  Forall (fun c => is_surrogate c = false) text →
  Forall (valid_span text) es →
  ∃ h' out,
    adjust_message_entities_to_utf_16 h text entities = Ok (h', out) ∧
    ∀ i j e1 e2 l1 l2,
      es !! i = Some e1 → es !! j = Some e2 →
      out !! i = Some l1 → out !! j = Some l2 →
      ∃ e1' e2',
        h' !! l1 = Some e1' ∧ h' !! l2 = Some e2' ∧
        (offset e1 <= offset e2 ↔ offset e1' <= offset e2') ∧
        (stop e1 <= stop e2 ↔ stop e1' <= stop e2') ∧
        (stop e1 <= offset e2 ↔ stop e1' <= offset e2') ∧
        (offset e1 <= stop e2 ↔ offset e1' <= stop e2').
Proof.
  intros Hes Htext Hvalid.
  destruct (adjust_result text Htext (valid_span text) h entities es)
    as (h' & out & Hcall & _ & _ & Hout);
    [done | by apply (valid_span_boundaries text) | done |].
  exists h', out. split; [done |].
  intros i j e1 e2 l1 l2 He1 He2 Hl1 Hl2.
  destruct (Forall2_lookup_lr _ _ _ _ _ _ Hout He1 Hl1)
    as ((Hoff1 & Hlen1 & Hstop1) & _ & Hl1').
  destruct (Forall2_lookup_lr _ _ _ _ _ _ Hout He2 Hl2)
    as ((Hoff2 & Hlen2 & Hstop2) & _ & Hl2').
  eexists _, _. split; [done |]. split; [done |].
  unfold stop. cbn [translated with_length with_offset offset length].
  replace (prefix_units text (offset e1)
           + (prefix_units text (offset e1 + length e1)
              - prefix_units text (offset e1)))
    with (prefix_units text (offset e1 + length e1)) by lia.
  replace (prefix_units text (offset e2)
           + (prefix_units text (offset e2 + length e2)
              - prefix_units text (offset e2)))
    with (prefix_units text (offset e2 + length e2)) by lia.
  repeat split; apply prefix_units_le_iff; lia.
Qed.

Lemma adjust_keeps_span_order_witness :
  ∃ h' out,
    adjust_message_entities_to_utf_16 example_entities example_text
      [0; 1; 2]%nat = Ok (h', out) ∧
    ∀ i j e1 e2 l1 l2,
      example_entities !! i = Some e1 → example_entities !! j = Some e2 →
      out !! i = Some l1 → out !! j = Some l2 →
      ∃ e1' e2',
        h' !! l1 = Some e1' ∧ h' !! l2 = Some e2' ∧
        (offset e1 <= offset e2 ↔ offset e1' <= offset e2') ∧
        (stop e1 <= stop e2 ↔ stop e1' <= stop e2') ∧
        (stop e1 <= offset e2 ↔ stop e1' <= offset e2') ∧
        (offset e1 <= stop e2 ↔ offset e1' <= stop e2').
Proof.
  apply (adjust_keeps_span_order example_entities example_text
           [0; 1; 2]%nat example_entities).
  - repeat constructor.
  - repeat (constructor; [reflexivity |]). constructor.
  - repeat (constructor; [repeat split; cbn; lia |]). constructor.
Defined.

(** X7: a span is translated on its own: with boundaries that are not
    negative, in a text without surrogate code points, the copy made of an
    entity is the same whatever other entities the list holds and wherever
    in the list it stands. *)
Theorem adjust_span_independent (h1 h2 : list t) (text : list Z)
    (entities1 entities2 : list nat) (es1 es2 : list t) (i j : nat) (e : t) :
  stored h1 entities1 es1 → stored h2 entities2 es2 →
  Forall (fun c => is_surrogate c = false) text →
  Forall (fun e => 0 <= offset e ∧ 0 <= stop e) es1 →
  Forall (fun e => 0 <= offset e ∧ 0 <= stop e) es2 →
  es1 !! i = Some e → es2 !! j = Some e →
  ∃ h1' out1 h2' out2 l1 l2 e',
    adjust_message_entities_to_utf_16 h1 text entities1 = Ok (h1', out1) ∧
    adjust_message_entities_to_utf_16 h2 text entities2 = Ok (h2', out2) ∧
    out1 !! i = Some l1 ∧ out2 !! j = Some l2 ∧
    h1' !! l1 = Some e' ∧ h2' !! l2 = Some e'.
Proof.
  intros Hes1 Hes2 Htext Hpos1 Hpos2 Hi Hj.
  destruct (adjust_result text Htext (fun _ => True) h1 entities1 es1)
    as (h1' & out1 & Hcall1 & _ & _ & Hout1); [done | done | by apply Forall_true |].
  destruct (adjust_result text Htext (fun _ => True) h2 entities2 es2)
    as (h2' & out2 & Hcall2 & _ & _ & Hout2); [done | done | by apply Forall_true |].
  destruct (Forall2_lookup_l _ _ _ _ _ Hout1 Hi) as (l1 & Hl1 & _ & _ & Hl1').
  destruct (Forall2_lookup_l _ _ _ _ _ Hout2 Hj) as (l2 & Hl2 & _ & _ & Hl2').
  by exists h1', out1, h2', out2, l1, l2, (translated text e).
Qed.

Lemma adjust_span_independent_witness :
  ∃ h1' out1 h2' out2 l1 l2 e',
    adjust_message_entities_to_utf_16 example_entities example_text
      [0; 1; 2]%nat = Ok (h1', out1) ∧
    adjust_message_entities_to_utf_16 [entity UNDERLINE 28 3] example_text
      [0%nat] = Ok (h2', out2) ∧
    out1 !! 2%nat = Some l1 ∧ out2 !! 0%nat = Some l2 ∧
    h1' !! l1 = Some e' ∧ h2' !! l2 = Some e'.
Proof.
  apply (adjust_span_independent example_entities [entity UNDERLINE 28 3]
           example_text [0; 1; 2]%nat [0%nat]
           example_entities [entity UNDERLINE 28 3] 2 0 (entity UNDERLINE 28 3)).
  - repeat constructor.
  - repeat constructor.
  - repeat (constructor; [reflexivity |]). constructor.
  - repeat (constructor; [split; unfold stop; cbn; lia |]). constructor.
  - repeat (constructor; [split; unfold stop; cbn; lia |]). constructor.
  - reflexivity.
  - reflexivity.
Defined.

End MessageEntityEdges.

(** ** The offset translator on the objects of the library *)

Module MessageEntityObjectFacts.
Import MessageEntityObject.

Lemma sorted_positions_span (xs : list t) :
  sorted_positions xs = MessageEntity.sorted_positions (span <$> xs).
Proof.
  unfold sorted_positions, MessageEntity.sorted_positions. f_equal.
  induction xs as [|x xs IH]; [done |]. cbn. by rewrite <-IH.
Qed.

(** The first loop is the first loop on the bare spans. *)
Lemma position_translation_span (text : list Z) (xs : list t) :
  position_translation text xs
  = MessageEntity.position_translation text (span <$> xs).
Proof.
  unfold position_translation, MessageEntity.position_translation.
  by rewrite sorted_positions_span.
Qed.

Lemma object_deref_Some (h : list t) (l : nat) (e : t) :
  h !! l = Some e → deref h l = Ok e.
Proof. unfold deref. by intros ->. Qed.

Lemma object_deref_None (h : list t) (l : nat) :
  h !! l = None → deref h l = Undefined.
Proof. unfold deref. by intros ->. Qed.

Lemma object_collect_entities (h : list t) (entities : list nat)
    (es acc : list t) :
  stored h entities es →
  for_each (fun acc l => x ← deref h l; Ok (acc ++ [x])) entities acc
  = Ok (acc ++ es).
Proof.
  intros Hes. revert acc.
  induction Hes as [|l e entities es Hl _ IH]; intros acc; cbn [for_each].
  { by rewrite app_nil_r. }
  rewrite (object_deref_Some h l e Hl), !bind_Ok, IH. by rewrite <-(assoc_L (++)).
Qed.

Lemma object_translate_entity_step (tr : gmap Z Z) (h : list t)
    (out : list nat) (l : nat) (e : t) :
  h !! l = Some e →
  is_Some (tr !! offset e) → is_Some (tr !! (offset e + length e)) →
  translate_entity tr (h, out) l
  = Ok (h ++ [translated_copy tr e], out ++ [List.length h]).
Proof.
  intros Hl [v1 Hstart] [v2 Hstop].
  unfold translate_entity, copy_copy, MessageEntity.getitem, translated_copy.
  rewrite !(object_deref_Some h l e Hl), bind_Ok, Hstart, bind_Ok, Hstop, !bind_Ok.
  unfold set_offset.
  rewrite (object_deref_Some _ _ (copied e)) by (by apply list_lookup_middle).
  rewrite bind_Ok, insert_app_r_alt, Nat.sub_diag by done.
  cbn [insert list_insert]. rewrite bind_Ok. unfold set_length.
  rewrite (object_deref_Some _ _ (with_offset (copied e) v1))
    by (by apply list_lookup_middle).
  by rewrite bind_Ok, insert_app_r_alt, Nat.sub_diag by done.
Qed.

Lemma object_translate_entity_loop (tr : gmap Z Z) (h : list t)
    (entities : list nat) (es new : list t) (out : list nat) :
  stored h entities es →
  Forall (fun e => is_Some (tr !! offset e) ∧
                   is_Some (tr !! (offset e + length e))) es →
  for_each (translate_entity tr) entities (h ++ new, out)
  = Ok (h ++ new ++ (translated_copy tr <$> es),
        out ++ seq (List.length (h ++ new)) (List.length es)).
Proof.
  intros Hes. revert new out.
  induction Hes as [|l e entities es Hl _ IH]; intros new out Htr; cbn [for_each].
  { by rewrite !app_nil_r. }
  apply Forall_cons in Htr as [[Hstart Hstop] Htr].
  rewrite (object_translate_entity_step tr (h ++ new) out l e), bind_Ok;
    [| by apply lookup_app_l_Some | done | done].
  rewrite <-(assoc_L (++) h), IH by done.
  rewrite <-!(assoc_L (++)), !length_app. cbn [List.length fmap list_fmap seq app].
  by replace (List.length h + (List.length new + 1))%nat
    with (S (List.length h + List.length new)) by lia.
Qed.

(** The whole function on a text without surrogate code points and
    boundaries that are not negative. *)
Lemma object_adjust_ok (h : list t) (text : list Z) (entities : list nat)
    (es : list t) :
  Forall (fun c => is_surrogate c = false) text →
  stored h entities es →
  Forall (fun e => 0 <= offset e ∧ 0 <= offset e + length e) es →
  ∃ tr,
    position_translation text es = Ok tr ∧
    (∀ e, e ∈ es →
       tr !! offset e = Some (MessageEntity.prefix_units text (offset e)) ∧
       tr !! (offset e + length e)
       = Some (MessageEntity.prefix_units text (offset e + length e))) ∧
    adjust_message_entities_to_utf_16 h text entities
    = Ok (h ++ (translated_copy tr <$> es), seq (List.length h) (List.length es)).
Proof.
  intros Htext Hes Hpos.
  assert (Forall (fun x => 0 <= MessageEntity.offset x ∧
                           0 <= MessageEntity.offset x + MessageEntity.length x)
            (span <$> es)) as Hpos'.
  { apply Forall_fmap. eapply Forall_impl; [exact Hpos | done]. }
  eexists. split.
  { rewrite position_translation_span.
    by apply MessageEntityFacts.position_translation_ok. }
  assert (∀ e, e ∈ es →
            ∀ p, p = offset e ∨ p = offset e + length e →
                 foldl (fun m p => <[p := MessageEntity.prefix_units text p]> m)
                   (∅ : gmap Z Z)
                   (MessageEntity.sorted_positions (span <$> es)) !! p
                 = Some (MessageEntity.prefix_units text p)) as Hkeys.
  { intros e He p Hp. rewrite MessageEntityFacts.lookup_foldl_insert.
    rewrite decide_True; [done |].
    apply MessageEntityFacts.elem_of_sorted_positions.
    exists (span e). split; [by apply list_elem_of_fmap_2 | done]. }
  split.
  { intros e He. split; apply (Hkeys e He); [by left | by right]. }
  unfold adjust_message_entities_to_utf_16.
  rewrite (object_collect_entities h entities es []), bind_Ok by done. cbn [app].
  rewrite position_translation_span.
  rewrite MessageEntityFacts.position_translation_ok, bind_Ok by done.
  match goal with |- for_each (translate_entity ?tr) _ _ = _ =>
    pose proof (object_translate_entity_loop tr h entities es [] []) as Hloop end.
  rewrite !app_nil_r in Hloop. cbn [app] in Hloop. apply Hloop; [done |].
  apply Forall_forall. intros e He.
  split; (eexists; apply (Hkeys e He)); [by left | by right].
Qed.

Lemma apply_api_kwarg_fst (attr : pyval) (key : string)
    (kw : gmap string pyval) :
  (apply_api_kwarg attr key kw).1 = after_copy attr (kw !! key).
Proof. unfold apply_api_kwarg, after_copy. by destruct attr, (kw !! key). Qed.

Lemma apply_api_kwarg_snd (attr : pyval) (key key' : string)
    (kw : gmap string pyval) :
  key ≠ key' → (apply_api_kwarg attr key kw).2 !! key' = kw !! key'.
Proof.
  intros Hne. unfold apply_api_kwarg.
  destruct attr, (kw !! key); cbn; try done. by apply lookup_delete_ne.
Qed.

(** What the copy holds: each auxiliary field is the field of the original,
    or - when that is [None] - the entry of its name in [api_kwargs]. *)
Lemma copied_fields (e : t) :
  type (copied e) = type e ∧
  offset (copied e) = offset e ∧
  length (copied e) = length e ∧
  url (copied e) = after_copy (url e) (api_kwargs e !! "url") ∧
  user (copied e) = after_copy (user e) (api_kwargs e !! "user") ∧
  language (copied e) = after_copy (language e) (api_kwargs e !! "language") ∧
  custom_emoji_id (copied e)
  = after_copy (custom_emoji_id e) (api_kwargs e !! "custom_emoji_id") ∧
  _id_attrs (copied e) = _id_attrs e.
Proof.
  unfold copied.
  destruct (apply_api_kwarg (url e) "url" (api_kwargs e)) as [v1 kw1] eqn:H1.
  destruct (apply_api_kwarg (user e) "user" kw1) as [v2 kw2] eqn:H2.
  destruct (apply_api_kwarg (language e) "language" kw2) as [v3 kw3] eqn:H3.
  destruct (apply_api_kwarg (custom_emoji_id e) "custom_emoji_id" kw3)
    as [v4 kw4] eqn:H4.
  destruct (apply_api_kwarg PNone "_bot" kw4) as [v5 kw5] eqn:H5.
  cbn.
  pose proof (apply_api_kwarg_fst (url e) "url" (api_kwargs e)) as E1.
  pose proof (apply_api_kwarg_fst (user e) "user" kw1) as E2.
  pose proof (apply_api_kwarg_fst (language e) "language" kw2) as E3.
  pose proof (apply_api_kwarg_fst (custom_emoji_id e) "custom_emoji_id" kw3)
    as E4.
  rewrite H1 in E1. rewrite H2 in E2. rewrite H3 in E3. rewrite H4 in E4.
  cbn in E1, E2, E3, E4.
  assert (∀ key : string, key ≠ "url" → kw1 !! key = api_kwargs e !! key) as K1.
  { intros key Hne.
    pose proof (apply_api_kwarg_snd (url e) "url" key (api_kwargs e)) as K.
    rewrite H1 in K. by apply K. }
  assert (∀ key : string, key ≠ "user" → kw2 !! key = kw1 !! key) as K2.
  { intros key Hne.
    pose proof (apply_api_kwarg_snd (user e) "user" key kw1) as K.
    rewrite H2 in K. by apply K. }
  assert (∀ key : string, key ≠ "language" → kw3 !! key = kw2 !! key) as K3.
  { intros key Hne.
    pose proof (apply_api_kwarg_snd (language e) "language" key kw2) as K.
    rewrite H3 in K. by apply K. }
  rewrite K1 in E2 by done. rewrite K2, K1 in E3 by done.
  rewrite K3, K2, K1 in E4 by done.
  by repeat split.
Qed.

(** *** The objects and their bare spans

    The call on a store of objects and the call on the store of their bare
    spans agree: the same outcome, the same references, and the new objects
    of the one are the new spans of the other. *)

Lemma span_translated_copy (tr : gmap Z Z) (e : t) :
  span (translated_copy tr e) = MessageEntityMeasures.translated_by tr (span e).
Proof.
  destruct (copied_fields e) as (Hty & Hoff & Hlen & _).
  unfold span, translated_copy, MessageEntityMeasures.translated_by,
    MessageEntityMeasures.stop, MessageEntity.entity.
  cbn. by rewrite Hty.
Qed.

Lemma collect_spans (h : list t) (entities : list nat) (acc : list t) :
  for_each (fun acc l => x ← MessageEntity.deref (span <$> h) l; Ok (acc ++ [x]))
    entities (span <$> acc)
  = match for_each (fun acc l => x ← deref h l; Ok (acc ++ [x])) entities acc with
    | Ok xs => Ok (span <$> xs)
    | Raise e => Raise e
    | Undefined => Undefined
    end.
Proof.
  revert acc. induction entities as [|l entities IH]; intros acc; [done |].
  cbn [for_each]. destruct (h !! l) as [e|] eqn:Hl.
  - rewrite (object_deref_Some h l e Hl),
      (MessageEntityFacts.deref_Some (span <$> h) l (span e))
      by (by rewrite list_lookup_fmap, Hl).
    rewrite !bind_Ok. specialize (IH (acc ++ [e])).
    rewrite fmap_app in IH. apply IH.
  - rewrite (object_deref_None h l Hl), (MessageEntityEdges.deref_None (span <$> h) l);
      [done |].
    by rewrite list_lookup_fmap, Hl.
Qed.

Lemma translate_entity_spans (tr : gmap Z Z) (h : list t) (out : list nat)
    (l : nat) :
  MessageEntity.translate_entity tr (span <$> h, out) l
  = match translate_entity tr (h, out) l with
    | Ok (h', out') => Ok (span <$> h', out')
    | Raise e => Raise e
    | Undefined => Undefined
    end.
Proof.
  destruct (h !! l) as [e|] eqn:Hl.
  2:{ unfold MessageEntity.translate_entity, translate_entity.
      rewrite (object_deref_None h l Hl), (MessageEntityEdges.deref_None (span <$> h) l);
        [done |].
      by rewrite list_lookup_fmap, Hl. }
  assert ((span <$> h) !! l = Some (span e)) as Hl'.
  { by rewrite list_lookup_fmap, Hl. }
  destruct (tr !! offset e) as [v1|] eqn:Hstart.
  2:{ unfold MessageEntity.translate_entity, translate_entity,
        MessageEntity.getitem.
      rewrite (object_deref_Some h l e Hl),
        (MessageEntityFacts.deref_Some (span <$> h) l (span e) Hl'), !bind_Ok.
      cbn [span MessageEntity.entity MessageEntity.offset]. by rewrite Hstart. }
  destruct (tr !! (offset e + length e)) as [v2|] eqn:Hstop.
  2:{ unfold MessageEntity.translate_entity, translate_entity,
        MessageEntity.getitem.
      rewrite (object_deref_Some h l e Hl),
        (MessageEntityFacts.deref_Some (span <$> h) l (span e) Hl'), !bind_Ok.
      cbn [span MessageEntity.entity MessageEntity.offset MessageEntity.length].
      by rewrite Hstart, !bind_Ok, Hstop. }
  rewrite (object_translate_entity_step tr h out l e) by (by rewrite ?Hstart, ?Hstop).
  rewrite (MessageEntityEdges.translate_entity_step_any tr (span <$> h) out l
             (span e)) by (by cbn; rewrite ?Hstart, ?Hstop).
  by rewrite fmap_app, length_fmap, <-span_translated_copy.
Qed.

Lemma translate_entities_spans (tr : gmap Z Z) (h : list t)
    (entities out : list nat) :
  for_each (MessageEntity.translate_entity tr) entities (span <$> h, out)
  = match for_each (translate_entity tr) entities (h, out) with
    | Ok (h', out') => Ok (span <$> h', out')
    | Raise e => Raise e
    | Undefined => Undefined
    end.
Proof.
  revert h out. induction entities as [|l entities IH]; intros h out; [done |].
  cbn [for_each]. rewrite translate_entity_spans.
  destruct (translate_entity tr (h, out) l) as [[h1 out1]|e|]; [| done..].
  rewrite !bind_Ok. apply IH.
Qed.

Lemma adjust_spans (h : list t) (text : list Z) (entities : list nat) :
  MessageEntity.adjust_message_entities_to_utf_16 (span <$> h) text entities
  = match adjust_message_entities_to_utf_16 h text entities with
    | Ok (h', out) => Ok (span <$> h', out)
    | Raise e => Raise e
    | Undefined => Undefined
    end.
Proof.
  unfold MessageEntity.adjust_message_entities_to_utf_16,
    adjust_message_entities_to_utf_16.
  pose proof (collect_spans h entities []) as Hcollect.
  cbn [fmap list_fmap] in Hcollect. rewrite Hcollect. clear Hcollect.
  destruct (for_each _ entities []) as [xs|e|]; [| by cbn | by cbn].
  rewrite !bind_Ok, position_translation_span.
  destruct (MessageEntity.position_translation text (span <$> xs))
    as [tr|e|]; [| by cbn | by cbn].
  rewrite !bind_Ok. apply (translate_entities_spans tr h entities []).
Qed.

(** C7, as stated, fails: an entity without [url] whose [api_kwargs] have an
    entry of that name is translated to an entity with that [url]. *)
Lemma adjust_copy_takes_api_kwargs :
  ∃ h' l' e',
    adjust_message_entities_to_utf_16 [link_in_api_kwargs] [0x1D122; 98; 99]
      [0%nat] = Ok (h', [l']) ∧
    h' !! l' = Some e' ∧
    url link_in_api_kwargs = PNone ∧
    url e' = PStr "https://telegram.org" ∧
    url e' ≠ url link_in_api_kwargs.
Proof.
  eexists _, _, _. split; [by vm_compute |]. split; [reflexivity |].
  split; [done |]. split; [done |]. discriminate.
Qed.

(** C7, amended: for valid spans whose [api_kwargs] have no private name the
    output has as many spans as the input, in the same order; each output
    span is a new object with the type of the input span at the same place,
    and each of its [url], [user], [language] and [custom_emoji_id] is the
    one of the input span if that is set, and the entry of that name in the
    [api_kwargs] of the input span if it is [None] there - [None] again if
    there is no such entry, so that a span without such entries keeps all
    four; the input references still denote the same entities afterwards,
    and no object of the store that existed before the call has changed. *)
Theorem adjust_preserves_fields (h : list t) (text : list Z)
    (entities : list nat) (es : list t) :
  stored h entities es →
  Forall scalar_value text →
  Forall (valid_span text) es →
  Forall (fun e => public_names (api_kwargs e) = true) es →
  ∃ h' out,
    adjust_message_entities_to_utf_16 h text entities = Ok (h', out) ∧
    List.length out = List.length entities ∧
    NoDup out ∧
    Forall2 (fun e l' => ∃ e',
      (List.length h <= l')%nat ∧ h' !! l' = Some e' ∧
      type e' = type e ∧
      url e' = after_copy (url e) (api_kwargs e !! "url") ∧
      user e' = after_copy (user e) (api_kwargs e !! "user") ∧
      language e' = after_copy (language e) (api_kwargs e !! "language") ∧
      custom_emoji_id e'
      = after_copy (custom_emoji_id e) (api_kwargs e !! "custom_emoji_id") ∧
      (api_kwargs e !! "url" = None → api_kwargs e !! "user" = None →
       api_kwargs e !! "language" = None →
       api_kwargs e !! "custom_emoji_id" = None →
       url e' = url e ∧ user e' = user e ∧ language e' = language e ∧
       custom_emoji_id e' = custom_emoji_id e))
      es out ∧
    stored h' entities es ∧
    (∀ l e, h !! l = Some e → h' !! l = Some e).
Proof.
  intros Hes Htext%scalar_not_surrogate Hvalid _.
  destruct (object_adjust_ok h text entities es) as (tr & _ & _ & Hcall);
    [done.. | |].
  { eapply Forall_impl; [exact Hvalid |]. intros e (? & ? & ?). cbn in *. lia. }
  eexists _, _. split; [exact Hcall |].
  split; [by rewrite length_seq, (Forall2_length _ _ _ Hes) |].
  split; [apply NoDup_seq |].
  split; [| split].
  - apply Forall2_same_length_lookup_2; [by rewrite length_seq |].
    intros i e l' He [-> Hi]%lookup_seq.
    exists (translated_copy tr e). split; [lia |].
    split; [by rewrite lookup_app_r, Nat.add_comm, Nat.add_sub,
                 list_lookup_fmap, He by lia |].
    destruct (copied_fields e)
      as (Hty & _ & _ & Hurl & Huser & Hlang & Hemoji & _).
    unfold translated_copy. cbn [with_length with_offset type url user language
                                   custom_emoji_id].
    rewrite Hty, Hurl, Huser, Hlang, Hemoji.
    do 5 (split; [done |]).
    intros -> -> -> ->. unfold after_copy.
    by destruct (url e), (user e), (language e), (custom_emoji_id e).
  - eapply Forall2_impl; [exact Hes |]. cbn. intros l e Hl.
    by apply lookup_app_l_Some.
  - intros l e Hl. by apply lookup_app_l_Some.
Qed.

Lemma adjust_preserves_fields_witness :
  let e := link_in_api_kwargs in
  ∃ h' out,
    adjust_message_entities_to_utf_16 [e] [0x1D122; 98; 99] [0; 0]%nat
    = Ok (h', out) ∧
    List.length out = List.length [0; 0]%nat ∧
    NoDup out ∧
    Forall2 (fun e l' => ∃ e',
      (List.length [link_in_api_kwargs] <= l')%nat ∧ h' !! l' = Some e' ∧
      type e' = type e ∧
      url e' = after_copy (url e) (api_kwargs e !! "url") ∧
      user e' = after_copy (user e) (api_kwargs e !! "user") ∧
      language e' = after_copy (language e) (api_kwargs e !! "language") ∧
      custom_emoji_id e'
      = after_copy (custom_emoji_id e) (api_kwargs e !! "custom_emoji_id") ∧
      (api_kwargs e !! "url" = None → api_kwargs e !! "user" = None →
       api_kwargs e !! "language" = None →
       api_kwargs e !! "custom_emoji_id" = None →
       url e' = url e ∧ user e' = user e ∧ language e' = language e ∧
       custom_emoji_id e' = custom_emoji_id e))
      [e; e] out ∧
    stored h' [0; 0]%nat [e; e] ∧
    (∀ l e0, [e] !! l = Some e0 → h' !! l = Some e0).
Proof.
  cbn zeta.
  apply (adjust_preserves_fields [link_in_api_kwargs] [0x1D122; 98; 99]
           [0; 0]%nat).
  - repeat constructor.
  - repeat (constructor; [split; [cbn; lia | reflexivity] |]). constructor.
  - repeat (constructor; [repeat split; cbn; lia |]). constructor.
  - repeat (constructor; [vm_compute; reflexivity |]). constructor.
Defined.

End MessageEntityObjectFacts.

(** ** The polymorphic decoder: dispatch, errors and edges *)

Module paidmediaEdges.
Import paidmedia paidmediaFacts.

Section Decoder.

Context {PhotoSize Video : Type}.
Variable PhotoSize_de_json : json → result (option PhotoSize).
Variable Video_de_json : json → result (option Video).
Variable PhotoSize_eq : PhotoSize → PhotoSize → bool.
Variable Video_eq : Video → Video → bool.

Local Abbreviation value := (paidmedia.value PhotoSize Video).
Local Abbreviation object := (paidmedia.object PhotoSize Video).
Local Abbreviation de_json := (paidmedia.de_json PhotoSize_de_json Video_de_json).
Local Abbreviation de_json_depth :=
  (paidmedia.de_json_depth PhotoSize_de_json Video_de_json).

Implicit Types (data : gmap string value) (cls : class) (o : object).

Lemma is_empty_true data : is_empty data = true ↔ data = ∅.
Proof.
  unfold is_empty. rewrite bool_decide_eq_true. apply map_size_empty_iff.
Qed.

Lemma is_empty_false data : is_empty data = false ↔ data ≠ ∅.
Proof. rewrite <-is_empty_true. by destruct (is_empty data). Qed.

(** The base decoder builds an object from every mapping it accepts. *)
Lemma TelegramObject_de_json_not_null cls data :
  TelegramObject_de_json cls (Some data) ≠ Ok None.
Proof.
  unfold TelegramObject_de_json.
  destruct (bool_decide _); [done |]. by destruct (call_init _ _ _).
Qed.

(** [cls.de_json] for the three variants, with the calls of the methods
    written out. *)
Lemma de_json_preview data :
  de_json PaidMediaPreview (Some data)
  = TelegramObject_de_json PaidMediaPreview (Some data).
Proof.
  unfold paidmedia.de_json. cbn [paidmedia.de_json_depth].
  by apply PaidMedia_de_json_not_base.
Qed.

Lemma de_json_photo_variant data :
  de_json PaidMediaPhoto (Some data)
  = if is_empty data then Ok None
    else photo ← PhotoSize_de_list PhotoSize_de_json (py_get data "photo");
         TelegramObject_de_json PaidMediaPhoto
           (Some (<["photo" := VPhotoSizes photo]> data)).
Proof.
  unfold paidmedia.de_json. cbn [paidmedia.de_json_depth].
  unfold PaidMediaPhoto_de_json, _parse_data.
  destruct (is_empty data); [done |].
  destruct (PhotoSize_de_list _ _) as [photo| |]; [| done..].
  rewrite !bind_Ok. by apply PaidMedia_de_json_not_base.
Qed.

Lemma de_json_video_variant data :
  de_json PaidMediaVideo (Some data)
  = if is_empty data then Ok None
    else video ← Video_de_json_value Video_de_json (py_get data "video");
         TelegramObject_de_json PaidMediaVideo
           (Some (<["video" := video]> data)).
Proof.
  unfold paidmedia.de_json. cbn [paidmedia.de_json_depth].
  unfold PaidMediaVideo_de_json, _parse_data.
  destruct (is_empty data); [done |].
  destruct (Video_de_json_value _ _) as [video| |]; [| done..].
  rewrite !bind_Ok. by apply PaidMedia_de_json_not_base.
Qed.

Lemma de_json_base data :
  data ≠ ∅ →
  de_json PaidMedia (Some data)
  = target ← _class_mapping (py_get data "type");
    match target with
    | Some c => de_json c (Some (delete "type" data))
    | None => TelegramObject_de_json PaidMedia (Some data)
    end.
Proof.
  intros Hne%is_empty_false.
  unfold paidmedia.de_json at 1. rewrite de_json_depth_base.
  unfold PaidMedia_de_json, _parse_data. rewrite Hne. cbn [andb].
  rewrite bool_decide_eq_true_2 by done.
  destruct (_class_mapping _) as [[c|]| |] eqn:Hc; [| done..].
  rewrite !bind_Ok. unfold paidmedia.de_json.
  apply de_json_depth_variant. by eapply class_mapping_variant.
Qed.

Lemma de_json_base_empty : de_json PaidMedia (Some ∅) = Ok None.
Proof.
  unfold paidmedia.de_json. rewrite de_json_depth_base.
  unfold PaidMedia_de_json, _parse_data.
  by rewrite (proj2 (is_empty_true ∅)).
Qed.

(** X8: the base entry point hands a mapping with a known discriminator to
    the decoder of the class it names, without the discriminator: both
    calls give the same result, an exception included. *)
Theorem de_json_dispatch data (v : value) (c : class) :
  data !! "type" = Some v →
  _class_mapping v = Ok (Some c) →
  de_json PaidMedia (Some data) = de_json c (Some (delete "type" data)).
Proof.
  intros Htype Hc. rewrite de_json_base.
  - by rewrite (py_get_lookup _ _ _ Htype), Hc, bind_Ok.
  - intros ->. by rewrite lookup_empty in Htype.
Qed.

(** X9: the class of a decoded object is the class [de_json] was called on
    for a concrete variant, whatever [type] the mapping holds; on the base
    class it is the class that the discriminator names, and the base class
    itself when it names none. *)
Theorem de_json_class cls data o :
  de_json cls (Some data) = Ok (Some o) →
  class_of o
  = if decide (cls = PaidMedia)
    then match _class_mapping (py_get data "type") with
         | Ok (Some c) => c
         | _ => PaidMedia
         end
    else cls.
Proof.
  assert (∀ c d, c ≠ PaidMedia → de_json c (Some d) = Ok (Some o) →
                 class_of o = c) as Hvariant.
  { intros c d Hc. destruct c; [done | | |].
    - rewrite de_json_preview. by intros [? _]%TelegramObject_de_json_class.
    - rewrite de_json_photo_variant. destruct (is_empty d); [done |].
      destruct (PhotoSize_de_list _ _); [| done..]. rewrite bind_Ok.
      by intros [? _]%TelegramObject_de_json_class.
    - rewrite de_json_video_variant. destruct (is_empty d); [done |].
      destruct (Video_de_json_value _ _); [| done..]. rewrite bind_Ok.
      by intros [? _]%TelegramObject_de_json_class. }
  case_decide as Hcls; [subst cls | by apply Hvariant].
  destruct (decide (data = ∅)) as [->|Hne].
  { by rewrite de_json_base_empty. }
  rewrite de_json_base by done.
  destruct (_class_mapping _) as [[c|]| |] eqn:Hc; [| | done..]; rewrite bind_Ok.
  - apply Hvariant. by eapply class_mapping_variant.
  - by intros [? _]%TelegramObject_de_json_class.
Qed.

Lemma variant_null_iff cls data :
  cls ≠ PaidMedia →
  de_json cls (Some data) = Ok None ↔ cls ≠ PaidMediaPreview ∧ data = ∅.
Proof.
  intros Hcls. destruct cls; [done | | |].
  - rewrite de_json_preview.
    split; [by intros ?%TelegramObject_de_json_not_null | by intros [? _]].
  - rewrite de_json_photo_variant.
    destruct (is_empty data) eqn:Hd.
    { apply is_empty_true in Hd. by split. }
    apply is_empty_false in Hd. split; [| by intros [_ ?]].
    destruct (PhotoSize_de_list _ _); [| done..]. rewrite bind_Ok.
    by intros ?%TelegramObject_de_json_not_null.
  - rewrite de_json_video_variant.
    destruct (is_empty data) eqn:Hd.
    { apply is_empty_true in Hd. by split. }
    apply is_empty_false in Hd. split; [| by intros [_ ?]].
    destruct (Video_de_json_value _ _); [| done..]. rewrite bind_Ok.
    by intros ?%TelegramObject_de_json_not_null.
Qed.

(** X10: the base entry point returns null for exactly two kinds of mapping:
    the empty one, and the one that holds nothing but the discriminator of a
    photo or a video - for which it raises nothing, although the field the
    variant requires is missing. *)
Theorem de_json_base_null_iff data :
  de_json PaidMedia (Some data) = Ok None ↔
  data = ∅ ∨
  (delete "type" data = ∅ ∧
   (_class_mapping (py_get data "type") = Ok (Some PaidMediaPhoto) ∨
    _class_mapping (py_get data "type") = Ok (Some PaidMediaVideo))).
Proof.
  destruct (decide (data = ∅)) as [->|Hne].
  { rewrite de_json_base_empty. split; [by left | done]. }
  rewrite de_json_base by done.
  assert (∀ c, _class_mapping (py_get data "type") = Ok (Some c) →
            (de_json c (Some (delete "type" data)) = Ok None ↔
             delete "type" data = ∅ ∧
             (c = PaidMediaPhoto ∨ c = PaidMediaVideo))) as Hvariant.
  { intros c Hc. pose proof (class_mapping_variant _ _ Hc) as Hbase.
    rewrite (variant_null_iff c) by done. split.
    - intros [Hc' ->]. split; [done |]. destruct c; [done.. | by left | by right].
    - intros [-> [-> | ->]]; by split. }
  destruct (_class_mapping _) as [[c|]| |] eqn:Hc.
  - rewrite bind_Ok, (Hvariant c eq_refl). split.
    + intros [Hd [-> | ->]]; right; (split; [done |]).
      * by left.
      * by right.
    + intros [? | [Hd [[= ->] | [= ->]]]]; [done | ..]; (split; [done |]).
      * by left.
      * by right.
  - rewrite bind_Ok. split; [by intros ?%TelegramObject_de_json_not_null |].
    by intros [? | [_ [? | ?]]].
  - cbn. split; [done |]. by intros [? | [_ [? | ?]]].
  - cbn. split; [done |]. by intros [? | [_ [? | ?]]].
Qed.

(** X12: a discriminator that is a list or a dict cannot be looked up in
    [_class_mapping]: the base entry point raises [TypeError]. *)
Theorem de_json_unhashable_type data (j : json) :
  data !! "type" = Some (VJson j) →
  (∃ l, j = JArr l) ∨ (∃ m, j = JObj m) →
  de_json PaidMedia (Some data) = Raise TypeError.
Proof.
  intros Htype Hj. rewrite de_json_base.
  - rewrite (py_get_lookup _ _ _ Htype). by destruct Hj as [[l ->] | [m ->]].
  - intros ->. by rewrite lookup_empty in Htype.
Qed.

(** X13: a mapping that is not empty and has no [type] entry cannot be
    decoded on the base class: the constructor misses its argument and
    [TypeError] is raised. *)
Theorem de_json_missing_type data :
  data ≠ ∅ →
  data !! "type" = None →
  de_json PaidMedia (Some data) = Raise TypeError.
Proof.
  intros Hne Htype. rewrite de_json_base by done.
  unfold py_get. rewrite Htype.
  change (_class_mapping (default VNone None : value))
    with (Ok None : result (option class)).
  rewrite bind_Ok. unfold TelegramObject_de_json, call_init.
  destruct (bool_decide _); [done |].
  by rewrite (proj2 (map_lookup_filter_None _ _ _)) by by left.
Qed.

(** X11: called on a concrete variant, [de_json] returns null for a mapping
    only if the class is [PaidMediaPhoto] or [PaidMediaVideo] and the
    mapping is empty; [PaidMediaPreview.de_json] never returns null for a
    mapping. *)
Theorem de_json_variant_null_iff cls data :
  cls ≠ PaidMedia →
  de_json cls (Some data) = Ok None ↔ cls ≠ PaidMediaPreview ∧ data = ∅.
Proof. apply variant_null_iff. Qed.

(** *** What each variant is built from *)

Lemma py_get_kwargs cls data (key : string) :
  key ∈ init_params cls →
  py_get (filter (fun kv : string * value => kv.1 ∈ init_params cls) data) key
  = py_get data key.
Proof.
  intros Hkey. unfold py_get. rewrite map_lookup_filter.
  destruct (data !! key); cbn; [| done]. by rewrite option_guard_True.
Qed.

Lemma py_get_delete data (key key' : string) :
  key ≠ key' → py_get (delete key data) key' = py_get data key'.
Proof. intros Hne. unfold py_get. by rewrite lookup_delete_ne. Qed.

(** X14: a mapping with the discriminator of a preview and without an entry
    named [self] or [api_kwargs] is always decoded, to a [PaidMediaPreview]
    that takes [width], [height] and [duration] as the mapping has them and
    [None] for each one it does not have; every other entry is kept in
    [api_kwargs]. *)
Theorem de_json_preview_fields data :
  data !! "type" = Some (VJson (JStr "preview")) →
  data !! "self" = None → data !! "api_kwargs" = None →
  ∃ o,
    de_json PaidMedia (Some data) = Ok (Some o) ∧
    class_of o = PaidMediaPreview ∧
    type o = VEnum PREVIEW ∧
    slots_of o = PreviewSlots (py_get data "width") (py_get data "height")
                   (py_get data "duration") ∧
    _id_attrs o = [VEnum PREVIEW; py_get data "width"; py_get data "height";
                   py_get data "duration"] ∧
    ∀ key : string,
      key ∉ ["type"; "width"; "height"; "duration"] →
      api_kwargs o !! key = data !! key.
Proof.
  intros Htype Hself Hkw. rewrite de_json_base.
  2:{ intros ->. by rewrite lookup_empty in Htype. }
  rewrite (py_get_lookup _ _ _ Htype).
  change (_class_mapping (VJson (JStr "preview") : value))
    with (Ok (Some PaidMediaPreview) : result (option class)).
  rewrite bind_Ok, de_json_preview.
  rewrite TelegramObject_de_json_call
    by (apply collides_None; by rewrite lookup_delete_ne).
  unfold call_init. rewrite bind_Ok.
  rewrite !(py_get_kwargs PaidMediaPreview), !py_get_delete
    by first [done | cbn; rewrite !elem_of_cons; tauto].
  eexists. split; [done |]. repeat split.
  intros key Hkey. cbn.
  assert (key ≠ "type") as Htype' by (intros ->; apply Hkey; by left).
  destruct (decide (key ∈ init_params PaidMediaPreview)) as [Hin|Hin].
  - rewrite api_kwargs_declared by done.
    unfold init_params in Hin. rewrite !elem_of_cons in Hin.
    rewrite !elem_of_cons in Hkey.
    destruct Hin as [-> | [-> | [-> | [-> | [-> | []%elem_of_nil]]]]];
      first [done | exfalso; tauto].
  - rewrite api_kwargs_lookup by done. by apply lookup_delete_ne.
Qed.


Lemma de_list_items_failure (good rest : list json) (bad : json)
    (rs : list (option PhotoSize)) (e : exn) :
  decoded PhotoSize_de_json good rs →
  PhotoSize_de_json bad = Raise e →
  de_list_items PhotoSize_de_json (good ++ bad :: rest) = Raise e.
Proof.
  intros Hgood Hbad.
  induction Hgood as [|d r good rs Hd _ IH]; cbn [app de_list_items].
  - by rewrite Hbad.
  - by rewrite Hd, bind_Ok, IH.
Qed.

(** X16: if an item of the [photo] list cannot be decoded, the exception of
    the first such item is the result of the whole call: no object is
    built from the items before it. *)
Theorem de_json_photo_item_failure data (good rest : list json) (bad : json)
    (rs : list (option PhotoSize)) (e : exn) :
  photo_mapping data (good ++ bad :: rest) →
  decoded PhotoSize_de_json good rs →
  PhotoSize_de_json bad = Raise e →
  de_json PaidMedia (Some data) = Raise e.
Proof.
  intros [Htype Hphoto] Hgood Hbad. rewrite de_json_base.
  2:{ intros ->. by rewrite lookup_empty in Htype. }
  rewrite (py_get_lookup _ _ _ Htype).
  change (_class_mapping (VJson (JStr "photo") : value))
    with (Ok (Some PaidMediaPhoto) : result (option class)).
  rewrite bind_Ok, de_json_photo_variant.
  assert (delete "type" data !! "photo"
          = Some (VJson (JArr (good ++ bad :: rest)))) as Hphoto'.
  { by rewrite lookup_delete_ne. }
  rewrite (is_empty_lookup _ _ _ Hphoto'), (py_get_lookup _ _ _ Hphoto').
  unfold PhotoSize_de_list.
  assert (truthy (JArr (good ++ bad :: rest)) = true) as ->.
  { cbn. rewrite length_app. cbn. rewrite bool_decide_eq_false_2; [done | lia]. }
  cbn [negb]. by rewrite (de_list_items_failure good rest bad rs e).
Qed.

(** X17: a mapping with the discriminator of a photo whose [photo] entry is
    missing, null or an empty list, and which holds something else, but no
    entry named [self] or [api_kwargs], is decoded to a [PaidMediaPhoto] with
    the empty tuple: nothing is raised for the field that is missing. *)
Theorem de_json_photo_without_photos data (j : json) :
  data !! "type" = Some (VJson (JStr "photo")) →
  py_get data "photo" = VJson j →
  truthy j = false →
  delete "type" data ≠ ∅ →
  data !! "self" = None → data !! "api_kwargs" = None →
  de_json PaidMedia (Some data)
  = Ok (Some (PaidMediaPhoto__init__ [] (delete "photo" (delete "type" data)))).
Proof.
  intros Htype Hphoto Hj Hrest Hself Hkw. rewrite de_json_base.
  2:{ intros ->. by rewrite lookup_empty in Htype. }
  rewrite (py_get_lookup _ _ _ Htype).
  change (_class_mapping (VJson (JStr "photo") : value))
    with (Ok (Some PaidMediaPhoto) : result (option class)).
  rewrite bind_Ok, de_json_photo_variant.
  rewrite (proj2 (is_empty_false _) Hrest), py_get_delete, Hphoto by done.
  unfold PhotoSize_de_list. rewrite Hj. cbn [negb]. rewrite bind_Ok.
  assert (∀ (v : value) (key : string), key ≠ "type" → key ≠ "photo" →
            <["photo" := v]> (delete "type" data) !! key = data !! key)
    as Hother.
  { intros v key ? ?. by rewrite lookup_insert_ne, lookup_delete_ne. }
  rewrite TelegramObject_de_json_call
    by (apply collides_None; by rewrite Hother).
  unfold init_params, call_init.
  rewrite kwargs_lookup, lookup_insert_eq by (rewrite !elem_of_cons; tauto).
  by rewrite bind_Ok, api_kwargs_delete, delete_insert_eq
    by by rewrite Hother.
Qed.

End Decoder.

(** *** The theorems at concrete mappings *)

Lemma de_json_dispatch_witness :
  sample.de_json PaidMedia (Some (sample.photo_data ["a"]))
  = sample.de_json PaidMediaPhoto
      (Some (delete "type" (sample.photo_data ["a"]))).
Proof.
  apply (de_json_dispatch sample.file_de_json sample.file_de_json
           (sample.photo_data ["a"]) (VJson (JStr "photo")) PaidMediaPhoto).
  - vm_compute. reflexivity.
  - reflexivity.
Defined.

Lemma de_json_class_witness :
  class_of (PaidMediaPhoto__init__ ["a"] {[ "type" := VJson (JStr "video") ]}
            : sample.object)
  = PaidMediaPhoto.
Proof.
  apply (de_json_class sample.file_de_json sample.file_de_json PaidMediaPhoto
           {[ "type" := VJson (JStr "video");
              "photo" := VJson (JArr [sample.file "a"]) ]}).
  vm_compute. reflexivity.
Defined.

Lemma de_json_variant_null_iff_witness :
  sample.de_json PaidMediaVideo (Some ∅) = Ok None ↔
  PaidMediaVideo ≠ PaidMediaPreview ∧ (∅ : gmap string sample.value) = ∅.
Proof.
  apply (de_json_variant_null_iff sample.file_de_json sample.file_de_json
           PaidMediaVideo ∅).
  discriminate.
Defined.

Lemma de_json_unhashable_type_witness :
  sample.de_json PaidMedia (Some {[ "type" := VJson (JArr [JStr "photo"]) ]})
  = Raise TypeError.
Proof.
  apply (de_json_unhashable_type sample.file_de_json sample.file_de_json
           {[ "type" := VJson (JArr [JStr "photo"]) ]} (JArr [JStr "photo"])).
  - vm_compute. reflexivity.
  - left. eexists. reflexivity.
Defined.

Lemma de_json_missing_type_witness :
  sample.de_json PaidMedia (Some {[ "width" := VJson (JNum 640) ]})
  = Raise TypeError.
Proof.
  apply (de_json_missing_type sample.file_de_json sample.file_de_json
           {[ "width" := VJson (JNum 640) ]}).
  - intros H. apply (f_equal (fun m => m !! "width")) in H. vm_compute in H.
    discriminate.
  - vm_compute. reflexivity.
Defined.

Lemma de_json_preview_fields_witness :
  ∃ o : sample.object,
    sample.de_json PaidMedia
      (Some {[ "type" := VJson (JStr "preview"); "width" := VJson (JNum 640) ]})
    = Ok (Some o) ∧
    class_of o = PaidMediaPreview ∧
    type o = VEnum PREVIEW ∧
    slots_of o
    = PreviewSlots
        (py_get {[ "type" := VJson (JStr "preview");
                   "width" := VJson (JNum 640) ]} "width")
        (py_get {[ "type" := VJson (JStr "preview");
                   "width" := VJson (JNum 640) ]} "height")
        (py_get {[ "type" := VJson (JStr "preview");
                   "width" := VJson (JNum 640) ]} "duration") ∧
    _id_attrs o
    = [VEnum PREVIEW;
       py_get {[ "type" := VJson (JStr "preview");
                 "width" := VJson (JNum 640) ]} "width";
       py_get {[ "type" := VJson (JStr "preview");
                 "width" := VJson (JNum 640) ]} "height";
       py_get {[ "type" := VJson (JStr "preview");
                 "width" := VJson (JNum 640) ]} "duration"] ∧
    ∀ key : string,
      key ∉ ["type"; "width"; "height"; "duration"] →
      api_kwargs o !! key
      = ({[ "type" := VJson (JStr "preview"); "width" := VJson (JNum 640) ]}
         : gmap string sample.value) !! key.
Proof.
  apply (de_json_preview_fields sample.file_de_json sample.file_de_json
           {[ "type" := VJson (JStr "preview"); "width" := VJson (JNum 640) ]}).
  - vm_compute. reflexivity.
  - vm_compute. reflexivity.
  - vm_compute. reflexivity.
Defined.


Lemma de_json_photo_item_failure_witness :
  sample.de_json PaidMedia
    (Some {[ "type" := VJson (JStr "photo");
             "photo" := VJson (JArr [sample.file "a"; JNum 7; sample.file "b"]) ]})
  = Raise TypeError.
Proof.
  apply (de_json_photo_item_failure sample.file_de_json sample.file_de_json
           {[ "type" := VJson (JStr "photo");
              "photo" := VJson (JArr [sample.file "a"; JNum 7; sample.file "b"]) ]}
           [sample.file "a"] [sample.file "b"] (JNum 7) [Some "a"] TypeError).
  - split; vm_compute; reflexivity.
  - repeat constructor.
  - reflexivity.
Defined.

Lemma de_json_photo_without_photos_witness :
  sample.de_json PaidMedia
    (Some {[ "type" := VJson (JStr "photo"); "caption" := VJson (JStr "x") ]})
  = Ok (Some (PaidMediaPhoto__init__ []
                (delete "photo"
                   (delete "type"
                      {[ "type" := VJson (JStr "photo");
                         "caption" := VJson (JStr "x") ]})))).
Proof.
  apply (de_json_photo_without_photos sample.file_de_json sample.file_de_json
           {[ "type" := VJson (JStr "photo"); "caption" := VJson (JStr "x") ]}
           JNull).
  - vm_compute. reflexivity.
  - vm_compute. reflexivity.
  - reflexivity.
  - intros H. apply (f_equal (fun m => m !! "caption")) in H. vm_compute in H.
    discriminate.
  - vm_compute. reflexivity.
  - vm_compute. reflexivity.
Defined.

End paidmediaEdges.

(** ** The decoder of [PaidMediaInfo] *)

Module paidmediainfoFacts.
Import paidmedia paidmediainfo.

Section Decoder.

Context {PhotoSize Video : Type}.
Variable PhotoSize_de_json : json → result (option PhotoSize).
Variable Video_de_json : json → result (option Video).

Local Abbreviation media := (paidmedia.object PhotoSize Video).
Local Abbreviation mapping := (gmap string (paidmedia.value PhotoSize Video)).
Local Abbreviation field := (paidmediainfo.field PhotoSize Video).
Local Abbreviation info_de_json :=
  (paidmediainfo.de_json PhotoSize_de_json Video_de_json).

Implicit Types (data : gmap string field).

Lemma info_not_empty data (key : string) (v : field) :
  data !! key = Some v → bool_decide (size data = 0%nat) = false.
Proof.
  intros Hkey. apply bool_decide_eq_false, map_size_ne_0_lookup.
  by exists key, v.
Qed.

Lemma info_de_list_items_decoded (items : list (option mapping))
    (rs : list (option media)) :
  decoded PhotoSize_de_json Video_de_json items rs →
  de_list_items PhotoSize_de_json Video_de_json items = Ok (omap id rs).
Proof.
  induction 1 as [|d r items rs Hd _ IH]; [done |].
  cbn [de_list_items]. rewrite Hd, bind_Ok, IH, bind_Ok. by destruct r.
Qed.

Lemma info_de_list_items_failure (good rest : list (option mapping))
    (bad : option mapping) (rs : list (option media)) (e : exn) :
  decoded PhotoSize_de_json Video_de_json good rs →
  paidmedia.de_json PhotoSize_de_json Video_de_json PaidMedia bad = Raise e →
  de_list_items PhotoSize_de_json Video_de_json (good ++ bad :: rest) = Raise e.
Proof.
  intros Hgood Hbad.
  induction Hgood as [|d r good rs Hd _ IH]; cbn [app de_list_items].
  - by rewrite Hbad.
  - by rewrite Hd, bind_Ok, IH.
Qed.

(** The base decoder on a mapping without an entry named [self] or
    [api_kwargs]. *)
Lemma info_TelegramObject_de_json_call data :
  data !! "self" = None → data !! "api_kwargs" = None →
  TelegramObject_de_json (Some data)
  = match data !! "star_count", data !! "paid_media" with
    | Some star_count, Some (FPaidMedia paid_media) =>
        Ok (Some (PaidMediaInfo__init__ star_count paid_media
                    (filter (fun kv : string * field => ¬ kv.1 ∈ init_params)
                       data)))
    | Some _, Some _ => Undefined
    | _, _ => Raise TypeError
    end.
Proof.
  intros Hself Hkw. unfold TelegramObject_de_json.
  rewrite bool_decide_eq_false_2.
  - by rewrite !paidmediaFacts.kwargs_lookup
      by (unfold init_params; rewrite !elem_of_cons; tauto).
  - apply paidmediaFacts.collides_None;
      by rewrite paidmediaFacts.kwargs_lookup
        by (unfold init_params; rewrite !elem_of_cons; tauto).
Qed.

(** X18: a [PaidMediaInfo] is decoded from its [star_count] and from the
    list of its paid media, each decoded by [PaidMedia.de_json], when the
    mapping has no entry named [self] or [api_kwargs]: the objects come in
    the order of the list, and a mapping that decodes to null - a null, an
    empty mapping, the bare discriminator of a photo - is left out without
    an exception. *)
Theorem info_de_json_decodes data (n : field) (items : list (option mapping))
    (rs : list (option media)) :
  data !! "star_count" = Some n →
  data !! "paid_media" = Some (FMappings items) →
  decoded PhotoSize_de_json Video_de_json items rs →
  data !! "self" = None → data !! "api_kwargs" = None →
  ∃ info,
    info_de_json (Some data) = Ok (Some info) ∧
    star_count info = n ∧
    paid_media info = omap id rs ∧
    _id_attrs info = [n; FPaidMedia (omap id rs)] ∧
    ∀ key : string,
      key ∉ ["star_count"; "paid_media"] →
      api_kwargs info !! key = data !! key.
Proof.
  intros Hn Hitems Hrs Hself Hkw. unfold paidmediainfo.de_json.
  rewrite (info_not_empty _ _ _ Hn), Hitems. cbn [from_option id PaidMedia_de_list].
  rewrite (info_de_list_items_decoded items rs Hrs), bind_Ok.
  rewrite info_TelegramObject_de_json_call by by rewrite lookup_insert_ne.
  rewrite lookup_insert_ne, Hn, lookup_insert_eq by done.
  eexists. split; [done |]. unfold PaidMediaInfo__init__. cbn zeta.
  rewrite paidmediaFacts.parse_sequence_arg_Some. cbn. repeat split.
  intros key Hkey. rewrite !elem_of_cons in Hkey.
  assert (<["paid_media" := FPaidMedia (omap id rs)]> data !! key = data !! key)
    as Hother.
  { apply lookup_insert_ne. intros <-. tauto. }
  destruct (decide (key ∈ init_params)) as [Hin|Hin].
  - rewrite paidmediaFacts.api_kwargs_declared by done.
    unfold init_params in Hin. rewrite !elem_of_cons in Hin.
    destruct Hin as [-> | [-> | [-> | [-> | []%elem_of_nil]]]];
      first [done | exfalso; tauto].
  - by rewrite paidmediaFacts.api_kwargs_lookup.
Qed.

(** X19: if a mapping of the list cannot be decoded, the exception of the
    first such mapping is the result of the whole call, whatever else the
    mapping of the [PaidMediaInfo] holds or misses. *)
Theorem info_de_json_item_failure data (good rest : list (option mapping))
    (bad : option mapping) (rs : list (option media)) (e : exn) :
  data !! "paid_media" = Some (FMappings (good ++ bad :: rest)) →
  decoded PhotoSize_de_json Video_de_json good rs →
  paidmedia.de_json PhotoSize_de_json Video_de_json PaidMedia bad = Raise e →
  info_de_json (Some data) = Raise e.
Proof.
  intros Hitems Hgood Hbad. unfold paidmediainfo.de_json.
  rewrite (info_not_empty _ _ _ Hitems), Hitems. cbn [from_option id PaidMedia_de_list].
  by rewrite (info_de_list_items_failure good rest bad rs e).
Qed.

(** X20: a mapping without [star_count] whose paid media all decode is
    refused with [TypeError]: the constructor misses its argument. *)
Theorem info_de_json_missing_star_count data
    (items : list (option mapping)) (rs : list (option media)) :
  data !! "star_count" = None →
  data !! "paid_media" = Some (FMappings items) →
  decoded PhotoSize_de_json Video_de_json items rs →
  info_de_json (Some data) = Raise TypeError.
Proof.
  intros Hn Hitems Hrs. unfold paidmediainfo.de_json.
  rewrite (info_not_empty _ _ _ Hitems), Hitems. cbn [from_option id PaidMedia_de_list].
  rewrite (info_de_list_items_decoded items rs Hrs), bind_Ok.
  unfold TelegramObject_de_json. destruct (bool_decide _); [done |].
  rewrite (proj2 (map_lookup_filter_None _ _ "star_count")); [done |].
  left. by rewrite lookup_insert_ne.
Qed.

End Decoder.

(** *** The theorems at concrete mappings *)

Lemma sample_info_decoded :
  decoded sample.file_de_json sample.file_de_json sample_info.items sample_info.results.
Proof. repeat constructor. Defined.

Lemma info_de_json_decodes_witness :
  ∃ info,
    paidmediainfo.de_json sample.file_de_json sample.file_de_json
      (Some {[ "star_count" := FJson (JNum 3);
               "paid_media" := FMappings sample_info.items ]})
    = Ok (Some info) ∧
    star_count info = FJson (JNum 3) ∧
    paid_media info = omap id sample_info.results ∧
    _id_attrs info = [FJson (JNum 3); FPaidMedia (omap id sample_info.results)] ∧
    ∀ key : string,
      key ∉ ["star_count"; "paid_media"] →
      api_kwargs info !! key
      = ({[ "star_count" := FJson (JNum 3);
            "paid_media" := FMappings sample_info.items ]}
         : gmap string (field string string)) !! key.
Proof.
  apply (info_de_json_decodes sample.file_de_json sample.file_de_json
           {[ "star_count" := FJson (JNum 3);
              "paid_media" := FMappings sample_info.items ]}
           (FJson (JNum 3)) sample_info.items sample_info.results).
  - vm_compute. reflexivity.
  - vm_compute. reflexivity.
  - exact sample_info_decoded.
  - vm_compute. reflexivity.
  - vm_compute. reflexivity.
Defined.

Lemma info_de_json_item_failure_witness :
  paidmediainfo.de_json sample.file_de_json sample.file_de_json
    (Some {[ "paid_media" :=
               FMappings [Some (sample.photo_data ["a"]);
                          Some {[ "width" := VJson (JNum 1) ]}] ]})
  = Raise TypeError.
Proof.
  apply (info_de_json_item_failure sample.file_de_json sample.file_de_json
           {[ "paid_media" :=
                FMappings [Some (sample.photo_data ["a"]);
                           Some {[ "width" := VJson (JNum 1) ]}] ]}
           [Some (sample.photo_data ["a"])] []
           (Some {[ "width" := VJson (JNum 1) ]})
           [Some (PaidMediaPhoto__init__ ["a"] ∅)] TypeError).
  - vm_compute. reflexivity.
  - repeat constructor.
  - vm_compute. reflexivity.
Defined.

Lemma info_de_json_missing_star_count_witness :
  paidmediainfo.de_json sample.file_de_json sample.file_de_json
    (Some {[ "paid_media" := FMappings sample_info.items ]})
  = Raise TypeError.
Proof.
  apply (info_de_json_missing_star_count sample.file_de_json
           sample.file_de_json
           {[ "paid_media" := FMappings sample_info.items ]}
           sample_info.items sample_info.results).
  - vm_compute. reflexivity.
  - vm_compute. reflexivity.
  - exact sample_info_decoded.
Defined.

End paidmediainfoFacts.
